(** * pa-permission-group-analyzer: a shallow embedding of [src/main.py]

    The program is one linear pipeline: [parse_group_file] reads a text file
    of lines [group:user1,user2,...] into a dictionary, [analyze_user_groups]
    inverts it to a dictionary from users to groups and keeps the users with
    at least [min_groups] entries, [write_output] renders one line per user,
    and [main] validates the arguments and wires the three together.

    Modelling choices.
    - A Python [str] is a [string]; its characters stand for the code points
      below 256.
    - A Python [dict] keeps its keys in insertion order and the program
      iterates over [items()], so a dictionary is an association list with
      the insertion discipline of [dict]: assigning to an existing key
      replaces the value in place, assigning to a new key appends.
    - [int] is [Z].
    - The outside world ([os.path.isfile], [open]) is an oracle [Env]; what
      the program does to the world (log records, console lines, the report
      file) is the state [World] of a state-and-exception monad [M]. *)

From Stdlib Require Import List String Ascii ZArith Lia Bool Permutation.
Import ListNotations.
Local Open Scope string_scope.
Local Open Scope list_scope.

(** ** Python's [str] methods used by the program *)

Module Str.

(** [str.isspace] on the code points below 256: TAB..CR, FS..US, space,
    NEL and NBSP. *)
Definition isspace (c : ascii) : bool :=
  let n := nat_of_ascii c in
  (((9 <=? n) && (n <=? 13)) || ((28 <=? n) && (n <=? 32))
   || (n =? 133) || (n =? 160))%nat.

Fixpoint lstrip (s : string) : string :=
  match s with
  | EmptyString => EmptyString
  | String c s' => if isspace c then lstrip s' else s
  end.

Fixpoint rstrip (s : string) : string :=
  match s with
  | EmptyString => EmptyString
  | String c s' =>
      match rstrip s' with
      | EmptyString => if isspace c then EmptyString else String c EmptyString
      | r => String c r
      end
  end.

(** [s.strip()] *)
Definition strip (s : string) : string := rstrip (lstrip s).

(** [s.startswith(c)] for a one-character prefix. *)
Definition startswith (c : ascii) (s : string) : bool :=
  match s with
  | String c' _ => Ascii.eqb c' c
  | EmptyString => false
  end.

(** [not s]: the empty string is the only falsy string. *)
Definition falsy (s : string) : bool :=
  match s with
  | EmptyString => true
  | String _ _ => false
  end.

(** [c in s] *)
Fixpoint contains (c : ascii) (s : string) : bool :=
  match s with
  | EmptyString => false
  | String c' s' => Ascii.eqb c' c || contains c s'
  end.

(** Puts [c] in front of the first piece of a split. *)
Definition cons_first (c : ascii) (ps : list string) : list string :=
  match ps with
  | p :: ps' => String c p :: ps'
  | [] => [String c EmptyString]
  end.

(** [s.split(sep)] for a one-character separator: never empty. *)
Fixpoint split (sep : ascii) (s : string) : list string :=
  match s with
  | EmptyString => [EmptyString]
  | String c s' =>
      if Ascii.eqb c sep then EmptyString :: split sep s'
      else cons_first c (split sep s')
  end.

(** [s.split(sep, 1)]: cuts at the first separator only. *)
Fixpoint split1 (sep : ascii) (s : string) : list string :=
  match s with
  | EmptyString => [EmptyString]
  | String c s' =>
      if Ascii.eqb c sep then [EmptyString; s']
      else cons_first c (split1 sep s')
  end.

(** [sep.join(l)] *)
Definition join (sep : string) (l : list string) : string :=
  String.concat sep l.

Definition LF : ascii := ascii_of_nat 10.
Definition CR : ascii := ascii_of_nat 13.

(** The lines a text-mode file object yields ([for line in f]): universal
    newlines turn CR LF and a lone CR into LF, every line but possibly the
    last keeps its terminator. *)
Fixpoint lines (s : string) : list string :=
  match s with
  | EmptyString => []
  | String c s' =>
      if Ascii.eqb c LF then String LF EmptyString :: lines s'
      else if Ascii.eqb c CR then
        match s' with
        | String c' s'' =>
            if Ascii.eqb c' LF then String LF EmptyString :: lines s''
            else String LF EmptyString :: lines s'
        | EmptyString => [String LF EmptyString]
        end
      else cons_first c (lines s')
  end.

End Str.

(** ** Insertion-ordered dictionaries *)

Module Dict.

Section WithValue.
Context {V : Type}.

Definition t := list (string * V).

Definition keys (d : t) : list string := map fst d.

(** [d.get(k)] *)
Fixpoint get (k : string) (d : t) : option V :=
  match d with
  | [] => None
  | (k', v) :: d' => if String.eqb k' k then Some v else get k d'
  end.

(** [d[k] = v]: an existing key keeps its position, a new key goes last. *)
Fixpoint set (k : string) (v : V) (d : t) : t :=
  match d with
  | [] => [(k, v)]
  | (k', v') :: d' =>
      if String.eqb k' k then (k', v) :: d' else (k', v') :: set k v d'
  end.

End WithValue.

Arguments t : clear implicits.

(** [d[k].append(x)] on a [defaultdict(list)]: a missing key is first
    inserted (last) with the empty list, then the list is extended in
    place. *)
Fixpoint append (k x : string) (d : t (list string)) : t (list string) :=
  match d with
  | [] => [(k, [x])]
  | (k', xs) :: d' =>
      if String.eqb k' k then (k', xs ++ [x]) :: d'
      else (k', xs) :: append k x d'
  end.

End Dict.

Definition GroupMembership := Dict.t (list string).
Definition UserGroupIndex := Dict.t (list string).

(** ** The world outside the program *)

Inductive level := INFO | ERROR.

Definition log_record : Type := level * string.

(** The [OSError] subclasses the program can tell apart. *)
Inductive oserror := FileNotFound | PermissionDenied | OtherOSError.

(** The exceptions that occur; [OSErr k msg] has [str(e) = msg]. Python 3's
    [IOError] is [OSError], and [FileNotFoundError] is one of its
    subclasses. *)
Inductive exn :=
| SystemExit (code : Z)
| OSErr (kind : oserror) (msg : string)
| ValueError.

Definition is_FileNotFoundError (e : exn) : bool :=
  match e with
  | OSErr FileNotFound _ => true
  | _ => false
  end.

Definition is_IOError (e : exn) : bool :=
  match e with
  | OSErr _ _ => true
  | _ => false
  end.

Definition is_ValueError (e : exn) : bool :=
  match e with
  | ValueError => true
  | _ => false
  end.

(** What the file system answers. [isfile] and [open_r] are separate
    answers because the file can change between the check in [main] and the
    [open] in [parse_group_file]. [open_w p = Some (k, msg)] says that
    opening [p] for writing, or a write to it, raises that [OSError]. *)
Record Env := {
  isfile : string -> bool;
  open_r : string -> string + oserror * string;
  open_w : string -> option (oserror * string)
}.

(** What the program has done: the records handed to [logging], the lines
    handed to [print], and the report file once its [with] block has run to
    completion (path and content). What a failed write leaves on disk is the
    platform's business and is not recorded. *)
Record World := {
  logged : list log_record;
  printed : list string;
  written : option (string * string)
}.

Definition initial : World :=
  {| logged := []; printed := []; written := None |}.

(** ** A state-and-exception monad *)

Definition M (A : Type) : Type := World -> World * (A + exn).

Definition ret {A} (a : A) : M A := fun w => (w, inl a).

Definition bind {A B} (m : M A) (k : A -> M B) : M B :=
  fun w =>
    match m w with
    | (w', inl a) => k a w'
    | (w', inr e) => (w', inr e)
    end.

Definition raise {A} (e : exn) : M A := fun w => (w, inr e).

(** [try: body  except <catches> as e: handler e] *)
Definition try_except {A} (body : M A) (catches : exn -> bool)
    (handler : exn -> M A) : M A :=
  fun w =>
    match body w with
    | (w', inr e) => if catches e then handler e w' else (w', inr e)
    | r => r
    end.

Notation "x <- m ;; k" := (bind m (fun x => k))
  (at level 61, m at next level, right associativity).
Notation "m ;;; k" := (bind m (fun _ => k))
  (at level 61, right associativity).

Definition logging_error (msg : string) : M unit :=
  fun w =>
    ({| logged := logged w ++ [(ERROR, msg)];
        printed := printed w;
        written := written w |}, inl tt).

Definition logging_info (msg : string) : M unit :=
  fun w =>
    ({| logged := logged w ++ [(INFO, msg)];
        printed := printed w;
        written := written w |}, inl tt).

(** [print] of one string: the built-in, which line 13 falls back to when
    [rich] is not installed. [printed] records the line handed over. What
    [rich.print] shows for it when line 11 binds that instead, and a
    [print] that raises, are not modelled: the statements below on
    [printed] are about the built-in. *)
Definition print (line : string) : M unit :=
  fun w =>
    ({| logged := logged w;
        printed := printed w ++ [line];
        written := written w |}, inl tt).

Definition sys_exit {A} (code : Z) : M A := raise (SystemExit code).

(** [with open(path, "r") as f]: the answer [inl content] is the open
    together with the complete read of lines 65 and 66, [content] being the
    decoded text; [inr] is an [OSError] raised by the [open]. An error
    raised while the lines are iterated (a decoding error, an I/O error in
    mid-file) is not modelled: a premise [open_r env path = inl content]
    is about a run that has read the whole text. *)
Definition open_read (env : Env) (path : string) : M string :=
  match open_r env path with
  | inl content => ret content
  | inr (k, msg) => raise (OSErr k msg)
  end.

Definition nl : string := String Str.LF "".

(** What [f.write(line + "\n")] for each of [lines] puts in a file. *)
Definition file_text (lines : list string) : string :=
  String.concat "" (map (fun line => (line ++ nl)%string) lines).

(** [with open(path, "w") as f: for line in lines: f.write(line + "\n")] *)
Definition write_lines (env : Env) (path : string) (lines : list string)
    : M unit :=
  match open_w env path with
  | Some (k, msg) => raise (OSErr k msg)
  | None =>
      fun w =>
        ({| logged := logged w;
            printed := printed w;
            written := Some (path, file_text lines) |},
         inl tt)
  end.

Fixpoint for_each {A} (xs : list A) (body : A -> M unit) : M unit :=
  match xs with
  | [] => ret tt
  | x :: xs' => body x ;;; for_each xs' body
  end.

(** ** The program *)

(** [a, b = l]: unpacking into two names raises [ValueError] unless [l] has
    exactly two elements. *)
Definition unpack2 (l : list string) : M (string * string) :=
  match l with
  | [a; b] => ret (a, b)
  | _ => raise ValueError
  end.

(** The list comprehension of line 73. *)
Definition users_of (users_str : string) : list string :=
  map Str.strip
    (filter (fun user => negb (Str.falsy (Str.strip user)))
       (Str.split ","%char users_str)).

(** The body of the loop [for line in f] (lines 67 to 77); the dictionary
    under construction is threaded through. *)
Definition parse_line (line : string) (group_memberships : GroupMembership)
    : M GroupMembership :=
  let line := Str.strip line in
  if Str.falsy line || Str.startswith "#"%char line
  then ret group_memberships
  else
    try_except
      (p <- unpack2 (Str.split1 ":"%char line) ;;
       let '(group_name, users_str) := p in
       let users := users_of users_str in
       ret (Dict.set (Str.strip group_name) users group_memberships))
      is_ValueError
      (fun _ =>
         logging_error ("Invalid line format in group file: " ++ line)%string ;;;
         ret group_memberships).

Fixpoint parse_lines (lines : list string)
    (group_memberships : GroupMembership) : M GroupMembership :=
  match lines with
  | [] => ret group_memberships
  | line :: rest =>
      gm <- parse_line line group_memberships ;;
      parse_lines rest gm
  end.

Definition parse_group_file (env : Env) (group_file : string)
    : M GroupMembership :=
  try_except
    (content <- open_read env group_file ;;
     parse_lines (Str.lines content) [])
    is_FileNotFoundError
    (fun _ =>
       logging_error ("Group file not found: " ++ group_file)%string ;;;
       sys_exit 1%Z).

(** The inversion loop of lines 100 to 102. *)
Definition invert (group_memberships : GroupMembership) : UserGroupIndex :=
  fold_left
    (fun user_to_groups '(group, users) =>
       fold_left
         (fun user_to_groups user => Dict.append user group user_to_groups)
         users user_to_groups)
    group_memberships [].

Definition analyze_user_groups (group_memberships : GroupMembership)
    (min_groups : Z) : UserGroupIndex :=
  filter
    (fun '(user, groups) => (Z.of_nat (List.length groups) >=? min_groups)%Z)
    (invert group_memberships).

(** Line 123. *)
Definition output_line (user : string) (groups : list string) : string :=
  ("User: " ++ user ++ ", Groups: " ++ Str.join ", " groups)%string.

Definition output_lines (user_to_groups : UserGroupIndex) : list string :=
  map (fun '(user, groups) => output_line user groups) user_to_groups.

(** [if output_file:] holds for a string that is not empty; [None] is the
    absent option. *)
Definition truthy (output_file : option string) : bool :=
  match output_file with
  | Some p => negb (Str.falsy p)
  | None => false
  end.

Definition write_output (env : Env) (user_to_groups : UserGroupIndex)
    (output_file : option string) : M unit :=
  let output_lines := output_lines user_to_groups in
  match output_file with
  | Some path =>
      if negb (Str.falsy path) then
        try_except
          (write_lines env path output_lines ;;;
           logging_info ("Analysis results written to: " ++ path)%string)
          is_IOError
          (fun e =>
             match e with
             | OSErr _ msg =>
                 logging_error ("Error writing to output file: " ++ msg)%string
             | _ => ret tt
             end)
      else for_each output_lines print
  | None => for_each output_lines print
  end.

(** The parsed command line. *)
Record Args := {
  group_file : string;
  output : option string;
  min_groups : Z
}.

(** [main] from line 142 on, that is from the parsed arguments: the call
    of [setup_argparse] (line 140), which [argparse] leaves by itself on a
    command line it refuses, is not modelled. *)
Definition main (env : Env) (args : Args) : M unit :=
  if negb (isfile env (group_file args)) then
    logging_error
      ("Group file does not exist: " ++ group_file args)%string ;;;
    sys_exit 1%Z
  else if (min_groups args <=? 0)%Z then
    logging_error "Minimum groups must be a positive integer." ;;;
    sys_exit 1%Z
  else
    group_memberships <- parse_group_file env (group_file args) ;;
    let users_in_multiple_groups :=
      analyze_user_groups group_memberships (min_groups args) in
    write_output env users_in_multiple_groups (output args).

(** The exit status of the interpreter: 0 when [main] returns, the code of
    [sys.exit], and 1 after the traceback of any other exception that
    nothing caught. *)
Definition exit_status {A} (r : A + exn) : Z :=
  match r with
  | inl _ => 0%Z
  | inr (SystemExit code) => code
  | inr _ => 1%Z
  end.

Definition run (env : Env) (args : Args) : World * Z :=
  let (w, r) := main env args initial in (w, exit_status r).

(** ** Views of the program used to state its properties *)

(** What the loop body does with one line, as a value: the three ways
    through lines 67 to 77. [parse_line_classify] below shows that
    [parse_line] does exactly this. *)
Inductive line_kind :=
| Skipped
| Malformed (line : string)
| Entry (group : string) (users : list string).

Definition classify (line : string) : line_kind :=
  let line := Str.strip line in
  if Str.falsy line || Str.startswith "#"%char line then Skipped
  else
    match Str.split1 ":"%char line with
    | [group_name; users_str] =>
        Entry (Str.strip group_name) (users_of users_str)
    | _ => Malformed line
    end.

Definition store (gm : GroupMembership) (line : string) : GroupMembership :=
  match classify line with
  | Entry group users => Dict.set group users gm
  | _ => gm
  end.

Definition invalid_line (line : string) : log_record :=
  (ERROR, ("Invalid line format in group file: " ++ line)%string).

Definition complaints (lines : list string) : list log_record :=
  flat_map
    (fun line =>
       match classify line with
       | Malformed l => [invalid_line l]
       | _ => []
       end)
    lines.

Definition log_more (w : World) (rs : list log_record) : World :=
  {| logged := logged w ++ rs; printed := printed w; written := written w |}.

(** A trimmed line that the parser neither skips as blank nor as comment. *)
Definition significant (line : string) : bool :=
  negb (Str.falsy (Str.strip line)
        || Str.startswith "#"%char (Str.strip line)).

Definition has_colon (line : string) : bool :=
  Str.contains ":"%char (Str.strip line).

(** A line the parser neither skips nor can split at a [:]. *)
Definition malformed (line : string) : bool :=
  significant line && negb (has_colon line).

(** A line that gives a group and its members. *)
Definition well_formed (line : string) : bool :=
  significant line && has_colon line.

(** The (user, group) pairs in the order the inversion loop meets them. *)
Definition occurrences (gm : GroupMembership) : list (string * string) :=
  flat_map (fun '(group, users) => map (fun user => (user, group)) users) gm.

(** Every member of every group, in the same order. *)
Definition all_members (gm : GroupMembership) : list string :=
  flat_map snd gm.

(** The group names met for [user], one per occurrence. *)
Definition groups_of (user : string) (occ : list (string * string))
    : list string :=
  map snd (filter (fun p => String.eqb (fst p) user) occ).

(** The same, read off the dictionary: each group contributes its name as
    many times as [user] occurs in its member list. *)
Definition groups_containing (user : string) (gm : GroupMembership)
    : list string :=
  flat_map
    (fun '(group, users) => repeat group (count_occ string_dec users user))
    gm.

Definition mem (x : string) (l : list string) : bool :=
  existsb (String.eqb x) l.

(** A list without its repeats, each element at its first position. *)
Fixpoint first_occurrences (l : list string) : list string :=
  match l with
  | [] => []
  | x :: l' =>
      x :: filter (fun y => negb (String.eqb y x)) (first_occurrences l')
  end.

Definition qualifies (gm : GroupMembership) (min_groups : Z)
    (user : string) : bool :=
  (Z.of_nat (List.length (groups_containing user gm)) >=? min_groups)%Z.

(** One step of the inversion loop on a (user, group) pair. *)
Definition invert_step (d : UserGroupIndex) (p : string * string)
    : UserGroupIndex :=
  Dict.append (fst p) (snd p) d.

(** The entries already in the index, each extended by the groups that
    [occ] adds for its user. *)
Definition extend (occ : list (string * string)) (d : UserGroupIndex)
    : UserGroupIndex :=
  map (fun '(k, xs) => (k, xs ++ groups_of k occ)) d.

(** The entries that [occ] creates for the users of [l] not yet [seen]. *)
Definition fresh_of (occ : list (string * string)) (seen l : list string)
    : UserGroupIndex :=
  map (fun u => (u, groups_of u occ))
    (filter (fun u => negb (mem u seen)) l).

(** Whether [line] is a well-formed line for the group [group]. *)
Definition names_group (group : string) (line : string) : bool :=
  match classify line with
  | Entry g _ => String.eqb g group
  | _ => false
  end.

(** The invocations of the fatal failures: the path is not an existing
    file, or the file cannot be opened when the parser reads it, or
    [--min-groups] is not positive. *)
Definition fatal_failure (env : Env) (args : Args) : Prop :=
  isfile env (group_file args) = false \/
  (exists e, open_r env (group_file args) = inr e) \/
  (min_groups args <= 0)%Z.

(** The statement that every fatal failure logs an error, ends with a
    status other than 0 and produces no report. *)
Definition fatal_failures_are_logged : Prop :=
  forall env args,
    fatal_failure env args ->
    (exists msg, In (ERROR, msg) (logged (fst (run env args)))) /\
    snd (run env args) <> 0%Z /\
    printed (fst (run env args)) = [] /\
    written (fst (run env args)) = None.

(** A string of whitespace only. *)
Fixpoint all_space (s : string) : bool :=
  match s with
  | EmptyString => true
  | String c s' => Str.isspace c && all_space s'
  end.

(** A string that does not start with whitespace. *)
Definition head_ok (s : string) : bool :=
  match s with
  | EmptyString => true
  | String c _ => negb (Str.isspace c)
  end.

(** A group name as the parser stores it: trimmed, and without [:]. *)
Definition clean_group (group : string) : Prop :=
  Str.strip group = group /\ Str.contains ":" group = false.

(** A member as the parser stores it: not empty, trimmed, without [,]. *)
Definition clean_user (user : string) : Prop :=
  user <> "" /\ Str.strip user = user /\ Str.contains "," user = false.

(** The group names of the well-formed lines, in file order. *)
Definition entry_names (lines : list string) : list string :=
  flat_map
    (fun line =>
       match classify line with
       | Entry group _ => [group]
       | _ => []
       end)
    lines.


(** The number of (group, member) occurrences held by a dictionary. *)
Definition total_memberships (d : Dict.t (list string)) : nat :=
  list_sum (map (fun entry => List.length (snd entry)) d).

(** A string with no line terminator in it. *)
Definition no_newline (s : string) : bool :=
  negb (Str.contains Str.LF s) && negb (Str.contains Str.CR s).

(** A line as the file iterator yields it: a body without line terminator,
    followed or not by the one [LF]. *)
Definition terminated_line (l : string) : Prop :=
  exists body,
    no_newline body = true /\ (l = body \/ l = (body ++ String Str.LF "")%string).

(** *** The parser as the specification words it

    These definitions follow section 4.1 of the specification and use
    neither [Dict.set] nor [users_of] nor [Str.split1]; the theorems
    compare the parser with them. *)

(** "Splits on the first [:] character into (group_name, rest)"; [None]
    when there is no [:]. *)
Fixpoint spec_cut (s : string) : option (string * string) :=
  match s with
  | EmptyString => None
  | String c s' =>
      if Ascii.eqb c ":" then Some (EmptyString, s')
      else
        match spec_cut s' with
        | Some (group_name, rest) => Some (String c group_name, rest)
        | None => None
        end
  end.

(** "Splits rest on [,] into candidate users; trims whitespace from each;
    drops any that become empty after trimming." *)
Definition spec_members (rest : string) : list string :=
  filter (fun user => negb (String.eqb user ""))
    (map Str.strip (Str.split "," rest)).

(** The entry that a line gives: none for a blank line, a comment or a
    line without [:]; else the trimmed group name and the members. *)
Definition spec_entry (line : string) : option (string * list string) :=
  let line := Str.strip line in
  if String.eqb line "" then None
  else if Str.startswith "#" line then None
  else
    match spec_cut line with
    | Some (group_name, rest) =>
        Some (Str.strip group_name, spec_members rest)
    | None => None
    end.

Definition spec_entries (lines : list string)
    : list (string * list string) :=
  flat_map
    (fun line =>
       match spec_entry line with
       | Some entry => [entry]
       | None => []
       end)
    lines.

(** The member lists that the entries give for [group], in file order. *)
Definition named (group : string) (entries : list (string * list string))
    : list (list string) :=
  map snd (filter (fun entry => String.eqb (fst entry) group) entries).

(** "Stores group_name -> member list in the mapping, overwriting any
    prior entry for the same group_name (last-write-wins)": one entry per
    group name, at the place of its first line, with the members of its
    last line. *)
Definition spec_mapping (entries : list (string * list string))
    : GroupMembership :=
  map (fun group => (group, last (named group entries) []))
    (first_occurrences (map fst entries)).

(** ** Concrete inputs *)

Definition example_file : string :=
  ("admin:user1,user2,user3" ++ nl ++
   "developers:user2,user4" ++ nl ++
   "testers:user3,user4,user5" ++ nl ++
   "support:user1,user5" ++ nl)%string.

(** [str(e)] of the two errors used below. *)
Definition permission_denied (path : string) : string :=
  ("[Errno 13] Permission denied: '" ++ path ++ "'")%string.

Definition no_such_file (path : string) : string :=
  ("[Errno 2] No such file or directory: '" ++ path ++ "'")%string.

(** A file system in which every path is a readable file holding
    [content] and every file can be written. *)
Definition env_with (content : string) : Env :=
  {| isfile := fun _ => true;
     open_r := fun _ => inl content;
     open_w := fun _ => None |}.

(** The same, but no file can be written. *)
Definition env_readonly (content : string) : Env :=
  {| isfile := fun _ => true;
     open_r := fun _ => inl content;
     open_w := fun path => Some (PermissionDenied, permission_denied path) |}.

(** A file that exists and cannot be read. *)
Definition env_unreadable : Env :=
  {| isfile := fun _ => true;
     open_r := fun path => inr (PermissionDenied, permission_denied path);
     open_w := fun _ => None |}.

(** No file at the path, neither at the check nor at the [open]. *)
Definition env_missing : Env :=
  {| isfile := fun _ => false;
     open_r := fun path => inr (FileNotFound, no_such_file path);
     open_w := fun _ => None |}.

Definition default_args : Args :=
  {| group_file := "groups.txt"; output := None; min_groups := 2 |}.

(** ** Lemmas on strings *)

Lemma split_nonempty (sep : ascii) (s : string) :
  exists p ps, Str.split sep s = p :: ps.
Proof.
  destruct s as [|c' s']; simpl.
  - eauto.
  - destruct (Ascii.eqb c' sep); [eauto|].
    destruct (Str.split sep s'); simpl; eauto.
Qed.

Lemma split1_no_sep (sep : ascii) (s : string) :
  Str.contains sep s = false -> Str.split1 sep s = [s].
Proof.
  induction s as [|c s IH]; simpl; intros H; [reflexivity|].
  apply orb_false_iff in H as [Hc Hs].
  rewrite Hc, (IH Hs). reflexivity.
Qed.

Lemma split1_sep (sep : ascii) (s : string) :
  Str.contains sep s = true ->
  exists a b,
    Str.split1 sep s = [a; b] /\
    s = (a ++ String sep b)%string /\
    Str.contains sep a = false.
Proof.
  induction s as [|c s IH]; simpl; intros H; [discriminate|].
  destruct (Ascii.eqb c sep) eqn:Hc.
  - apply Ascii.eqb_eq in Hc. subst c.
    exists ""%string, s. auto.
  - simpl in H. destruct (IH H) as (a & b & Hsp & Hs & Ha).
    exists (String c a), b. rewrite Hsp. simpl.
    rewrite Hc, Ha. repeat split. now rewrite <- Hs.
Qed.

Lemma split_join (sep : ascii) (s : string) :
  Str.join (String sep "") (Str.split sep s) = s.
Proof.
  unfold Str.join.
  induction s as [|c s IH]; simpl; [reflexivity|].
  destruct (Ascii.eqb c sep) eqn:Hc.
  - apply Ascii.eqb_eq in Hc. subst c.
    destruct (split_nonempty sep s) as (p & ps & E).
    rewrite E in *. simpl. simpl in IH. now rewrite IH.
  - destruct (Str.split sep s) as [|p ps]; simpl in *.
    + now subst s.
    + destruct ps; simpl in *; now rewrite <- IH.
Qed.

Lemma split_pieces (sep : ascii) (s : string) :
  Forall (fun p => Str.contains sep p = false) (Str.split sep s).
Proof.
  induction s as [|c s IH]; simpl.
  - repeat constructor.
  - destruct (Ascii.eqb c sep) eqn:Hc.
    + constructor; [reflexivity | exact IH].
    + destruct (Str.split sep s) as [|p ps]; simpl.
      * repeat constructor. simpl. now rewrite Hc.
      * inversion IH; subst. constructor; [|assumption].
        simpl. now rewrite Hc.
Qed.

(** ** The parser *)

Lemma log_more_nil (w : World) : log_more w [] = w.
Proof. destruct w. unfold log_more. simpl. now rewrite app_nil_r. Qed.

Lemma log_more_app (w : World) (r1 r2 : list log_record) :
  log_more (log_more w r1) r2 = log_more w (r1 ++ r2).
Proof. unfold log_more. simpl. now rewrite app_assoc. Qed.

(** [parse_line] takes one of the three ways of [classify], and only a
    malformed line touches the world. *)
Lemma parse_line_classify (line : string) (gm : GroupMembership) (w : World) :
  parse_line line gm w =
  match classify line with
  | Skipped => (w, inl gm)
  | Malformed l => (log_more w [invalid_line l], inl gm)
  | Entry group users => (w, inl (Dict.set group users gm))
  end.
Proof.
  unfold parse_line, classify.
  destruct (Str.falsy (Str.strip line) || Str.startswith "#" (Str.strip line));
    [reflexivity|].
  unfold try_except, bind.
  destruct (Str.split1 ":" (Str.strip line)) as [|a [|b [|c l]]];
    reflexivity.
Qed.

Lemma parse_lines_spec (lines : list string) :
  forall (gm : GroupMembership) (w : World),
    parse_lines lines gm w =
    (log_more w (complaints lines), inl (fold_left store lines gm)).
Proof.
  induction lines as [|line rest IH]; intros gm w; simpl.
  - now rewrite log_more_nil.
  - unfold bind. rewrite parse_line_classify. unfold store at 2.
    destruct (classify line); rewrite IH; try rewrite log_more_app;
      reflexivity.
Qed.

Lemma classify_skipped (line : string) :
  significant line = false -> classify line = Skipped.
Proof.
  unfold significant, classify. intros H.
  apply negb_false_iff in H. now rewrite H.
Qed.

Lemma classify_malformed (line : string) :
  significant line = true -> has_colon line = false ->
  classify line = Malformed (Str.strip line).
Proof.
  unfold significant, has_colon, classify. intros H Hc.
  apply negb_true_iff in H. rewrite H.
  now rewrite (split1_no_sep _ _ Hc).
Qed.

Lemma classify_entry (line : string) :
  significant line = true -> has_colon line = true ->
  exists group_name users_str,
    Str.strip line = (group_name ++ String ":" users_str)%string /\
    Str.contains ":" group_name = false /\
    classify line = Entry (Str.strip group_name) (users_of users_str).
Proof.
  unfold significant, has_colon, classify. intros H Hc.
  apply negb_true_iff in H. rewrite H.
  destruct (split1_sep _ _ Hc) as (a & b & Hsp & Hs & Ha).
  exists a, b. now rewrite Hsp.
Qed.

(** The comprehension filters before it trims; trimming first and dropping
    the empty results afterwards gives the same list. *)
Lemma users_of_trim_then_drop (users_str : string) :
  users_of users_str =
  filter (fun user => negb (Str.falsy user))
    (map Str.strip (Str.split "," users_str)).
Proof.
  unfold users_of.
  induction (Str.split "," users_str) as [|u us IH]; simpl; [reflexivity|].
  destruct (Str.falsy (Str.strip u)); simpl; now rewrite IH.
Qed.

(** ** Lemmas on dictionaries *)

Lemma mem_In (x : string) (l : list string) : mem x l = true <-> In x l.
Proof.
  unfold mem. rewrite existsb_exists. split.
  - intros (y & Hy & E). apply String.eqb_eq in E. now subst.
  - intros H. exists x. split; [assumption | apply String.eqb_refl].
Qed.

Lemma mem_not_In (x : string) (l : list string) :
  mem x l = false <-> ~ In x l.
Proof.
  rewrite <- mem_In. destruct (mem x l); split; congruence.
Qed.

Section DictLemmas.
Context {V : Type}.
Implicit Types (d : Dict.t V) (k : string) (v : V).

Lemma get_set_same k v d : Dict.get k (Dict.set k v d) = Some v.
Proof.
  induction d as [|[k' v'] d IH]; simpl.
  - now rewrite String.eqb_refl.
  - destruct (String.eqb k' k) eqn:E; simpl; rewrite E; auto.
Qed.

Lemma get_set_other k k' v d :
  k <> k' -> Dict.get k (Dict.set k' v d) = Dict.get k d.
Proof.
  intros Hne. induction d as [|[k0 v0] d IH]; simpl.
  - apply not_eq_sym in Hne. apply String.eqb_neq in Hne. now rewrite Hne.
  - destruct (String.eqb k0 k') eqn:E; simpl.
    + apply String.eqb_eq in E. subst k0.
      apply not_eq_sym in Hne. apply String.eqb_neq in Hne.
      now rewrite Hne.
    + now rewrite IH.
Qed.

Lemma keys_set k v d :
  Dict.keys (Dict.set k v d) =
  if mem k (Dict.keys d) then Dict.keys d else Dict.keys d ++ [k].
Proof.
  induction d as [|[k' v'] d IH]; simpl; [reflexivity|].
  rewrite (String.eqb_sym k k').
  destruct (String.eqb k' k) eqn:E; simpl; [reflexivity|].
  unfold Dict.keys in *. rewrite IH.
  now destruct (mem k (map fst d)).
Qed.

Lemma NoDup_keys_set k v d :
  NoDup (Dict.keys d) -> NoDup (Dict.keys (Dict.set k v d)).
Proof.
  intros H. rewrite keys_set.
  destruct (mem k (Dict.keys d)) eqn:E; [assumption|].
  apply mem_not_In in E.
  apply NoDup_app; [assumption | | ].
  - repeat constructor. intros [].
  - intros x Hx [Hk|[]]. subst. contradiction.
Qed.

Lemma get_In k v d : Dict.get k d = Some v -> In (k, v) d.
Proof.
  induction d as [|[k' v'] d IH]; simpl; [discriminate|].
  destruct (String.eqb k' k) eqn:E.
  - apply String.eqb_eq in E. intros [= ->]. subst. now left.
  - intros H. right. auto.
Qed.

Lemma get_None k d : Dict.get k d = None <-> ~ In k (Dict.keys d).
Proof.
  induction d as [|[k' v'] d IH]; simpl; [tauto|].
  destruct (String.eqb k' k) eqn:E.
  - apply String.eqb_eq in E. split; [discriminate | intros H; tauto].
  - apply String.eqb_neq in E. rewrite IH. tauto.
Qed.

(** In a dictionary a key has one value. *)
Lemma In_get k v d : NoDup (Dict.keys d) -> In (k, v) d -> Dict.get k d = Some v.
Proof.
  induction d as [|[k' v'] d IH]; simpl; [tauto|].
  intros Hnd [E|Hin].
  - inversion E; subst. now rewrite String.eqb_refl.
  - inversion Hnd as [|? ? Hk Hd]; subst.
    destruct (String.eqb k' k) eqn:E.
    + apply String.eqb_eq in E. subst k'.
      exfalso. apply Hk. change k with (fst (k, v)). now apply in_map.
    + auto.
Qed.

(** The first entry of a key survives a filter that accepts it. *)
Lemma get_filter (P : string * V -> bool) k v d :
  Dict.get k d = Some v -> P (k, v) = true ->
  Dict.get k (filter P d) = Some v.
Proof.
  induction d as [|[k' v'] d IH]; simpl; [discriminate|].
  destruct (String.eqb k' k) eqn:E.
  - apply String.eqb_eq in E. subst k'. intros [= ->] HP.
    rewrite HP. simpl. now rewrite String.eqb_refl.
  - intros H HP. destruct (P (k', v')); simpl; [rewrite E|]; auto.
Qed.

End DictLemmas.

Lemma NoDup_count_1 (l : list string) (x : string) :
  NoDup l -> In x l -> count_occ string_dec l x = 1.
Proof.
  intros Hnd Hin.
  pose proof (proj1 (NoDup_count_occ string_dec l) Hnd x) as Hle.
  apply (count_occ_In string_dec) in Hin. lia.
Qed.

(** ** The inversion loop *)

Lemma groups_of_cons (k u g : string) (occ : list (string * string)) :
  groups_of k ((u, g) :: occ) =
  if String.eqb u k then g :: groups_of k occ else groups_of k occ.
Proof. unfold groups_of. simpl. now destruct (String.eqb u k). Qed.

Lemma groups_of_app (k : string) (o1 o2 : list (string * string)) :
  groups_of k (o1 ++ o2) = groups_of k o1 ++ groups_of k o2.
Proof. unfold groups_of. now rewrite filter_app, map_app. Qed.

Lemma keys_append (u g : string) (d : UserGroupIndex) :
  Dict.keys (Dict.append u g d) =
  if mem u (Dict.keys d) then Dict.keys d else Dict.keys d ++ [u].
Proof.
  induction d as [|[k xs] d IH]; simpl; [reflexivity|].
  rewrite (String.eqb_sym u k).
  destruct (String.eqb k u) eqn:E; simpl; [reflexivity|].
  unfold Dict.keys in *. rewrite IH.
  now destruct (mem u (map fst d)).
Qed.

Lemma NoDup_keys_append (u g : string) (d : UserGroupIndex) :
  NoDup (Dict.keys d) -> NoDup (Dict.keys (Dict.append u g d)).
Proof.
  intros H. rewrite keys_append.
  destruct (mem u (Dict.keys d)) eqn:E; [assumption|].
  apply mem_not_In in E.
  apply NoDup_app; [assumption | | ].
  - repeat constructor. intros [].
  - intros x Hx [Hk|[]]. subst. contradiction.
Qed.

Lemma append_new (u g : string) (d : UserGroupIndex) :
  ~ In u (Dict.keys d) -> Dict.append u g d = d ++ [(u, [g])].
Proof.
  induction d as [|[k xs] d IH]; simpl; intros H; [reflexivity|].
  destruct (String.eqb k u) eqn:E.
  - apply String.eqb_eq in E. subst. tauto.
  - rewrite IH; tauto.
Qed.

Lemma extend_new (u g : string) (occ : list (string * string))
    (d : UserGroupIndex) :
  ~ In u (Dict.keys d) -> extend ((u, g) :: occ) d = extend occ d.
Proof.
  induction d as [|[k xs] d IH]; simpl; intros H; [reflexivity|].
  rewrite groups_of_cons.
  destruct (String.eqb u k) eqn:E.
  - apply String.eqb_eq in E. subst. tauto.
  - rewrite IH; tauto.
Qed.

Lemma extend_append_old (u g : string) (occ : list (string * string))
    (d : UserGroupIndex) :
  NoDup (Dict.keys d) -> In u (Dict.keys d) ->
  extend occ (Dict.append u g d) = extend ((u, g) :: occ) d.
Proof.
  induction d as [|[k xs] d IH]; simpl; intros Hnd Hin; [contradiction|].
  inversion Hnd as [|? ? Hk Hd]; subst.
  rewrite groups_of_cons, (String.eqb_sym u k).
  destruct (String.eqb k u) eqn:E; simpl.
  - apply String.eqb_eq in E. subst k.
    rewrite (extend_new u g occ d Hk), <- app_assoc. reflexivity.
  - destruct Hin as [->|Hin]; [rewrite String.eqb_refl in E; discriminate|].
    now rewrite IH.
Qed.

Lemma extend_nil (d : UserGroupIndex) : extend [] d = d.
Proof.
  induction d as [|[k xs] d IH]; simpl; [reflexivity|].
  unfold groups_of. simpl. now rewrite app_nil_r, IH.
Qed.

Lemma fresh_of_old (u g : string) (occ : list (string * string))
    (seen l : list string) :
  In u seen ->
  fresh_of ((u, g) :: occ) seen
    (filter (fun y => negb (String.eqb y u)) l) =
  fresh_of occ seen l.
Proof.
  intros Hu. unfold fresh_of.
  induction l as [|y l IH]; simpl; [reflexivity|].
  destruct (String.eqb y u) eqn:E; simpl.
  - apply String.eqb_eq in E. subst y.
    apply mem_In in Hu. now rewrite Hu.
  - destruct (mem y seen); simpl; [assumption|].
    rewrite groups_of_cons, (String.eqb_sym u y), E. now rewrite IH.
Qed.

Lemma mem_app_single (y u : string) (seen : list string) :
  mem y (seen ++ [u]) = mem y seen || String.eqb y u.
Proof. unfold mem. rewrite existsb_app. simpl. now rewrite orb_false_r. Qed.

Lemma fresh_of_new (u g : string) (occ : list (string * string))
    (seen l : list string) :
  fresh_of ((u, g) :: occ) seen
    (filter (fun y => negb (String.eqb y u)) l) =
  fresh_of occ (seen ++ [u]) l.
Proof.
  unfold fresh_of.
  induction l as [|y l IH]; simpl; [reflexivity|].
  rewrite mem_app_single.
  destruct (String.eqb y u) eqn:E; simpl.
  - now rewrite orb_true_r.
  - rewrite orb_false_r. destruct (mem y seen); simpl; [assumption|].
    rewrite groups_of_cons, (String.eqb_sym u y), E. now rewrite IH.
Qed.

(** The loop invariant of the inversion: old entries are extended in place,
    new users are added behind them in the order of their first
    occurrence. *)
Lemma fold_invert_step (occ : list (string * string)) :
  forall d : UserGroupIndex,
    NoDup (Dict.keys d) ->
    fold_left invert_step occ d =
    extend occ d ++
    fresh_of occ (Dict.keys d) (first_occurrences (map fst occ)).
Proof.
  induction occ as [|[u g] occ IH]; intros d Hnd; simpl.
  - now rewrite extend_nil, app_nil_r.
  - unfold invert_step at 2. simpl.
    rewrite (IH _ (NoDup_keys_append u g d Hnd)), keys_append.
    destruct (mem u (Dict.keys d)) eqn:E.
    + assert (Hin : In u (Dict.keys d)) by now apply mem_In.
      rewrite (extend_append_old u g occ d Hnd Hin). f_equal.
      unfold fresh_of at 2. simpl. rewrite E. simpl.
      symmetry. now apply fresh_of_old.
    + assert (Hout : ~ In u (Dict.keys d)) by now apply mem_not_In.
      rewrite (append_new u g d Hout), (extend_new u g occ d Hout).
      unfold extend at 1. rewrite map_app. simpl.
      rewrite <- app_assoc. simpl. f_equal.
      unfold fresh_of at 2. simpl. rewrite E. simpl.
      rewrite groups_of_cons, String.eqb_refl. f_equal.
      symmetry. apply fresh_of_new.
Qed.

Lemma invert_inner (group : string) (users : list string) :
  forall d : UserGroupIndex,
    fold_left (fun d user => Dict.append user group d) users d =
    fold_left invert_step (map (fun user => (user, group)) users) d.
Proof.
  induction users as [|u us IH]; intros d; simpl; [reflexivity|].
  now rewrite IH.
Qed.

Lemma invert_occurrences (gm : GroupMembership) :
  invert gm = fold_left invert_step (occurrences gm) [].
Proof.
  unfold invert. generalize (@nil (string * list string)) as d.
  induction gm as [|[group users] gm IH]; intros d; simpl; [reflexivity|].
  now rewrite fold_left_app, IH, invert_inner.
Qed.

Lemma occurrences_users (gm : GroupMembership) :
  map fst (occurrences gm) = all_members gm.
Proof.
  unfold occurrences, all_members.
  induction gm as [|[group users] gm IH]; simpl; [reflexivity|].
  rewrite map_app, IH, map_map. simpl. now rewrite map_id.
Qed.

Lemma groups_of_one_group (user group : string) (users : list string) :
  groups_of user (map (fun u => (u, group)) users) =
  repeat group (count_occ string_dec users user).
Proof.
  induction users as [|u us IH]; simpl; [reflexivity|].
  rewrite groups_of_cons, IH.
  destruct (string_dec u user) as [->|Hne].
  - now rewrite String.eqb_refl.
  - apply String.eqb_neq in Hne. now rewrite Hne.
Qed.

Lemma groups_of_occurrences (user : string) (gm : GroupMembership) :
  groups_of user (occurrences gm) = groups_containing user gm.
Proof.
  unfold occurrences, groups_containing.
  induction gm as [|[group users] gm IH]; simpl; [reflexivity|].
  now rewrite groups_of_app, IH, groups_of_one_group.
Qed.

Lemma filter_all {A} (P : A -> bool) (l : list A) :
  (forall x, In x l -> P x = true) -> filter P l = l.
Proof.
  induction l as [|x l IH]; simpl; intros H; [reflexivity|].
  rewrite (H x (or_introl eq_refl)). f_equal. auto.
Qed.

(** What the inversion loop builds: one entry per distinct member, in the
    order of first occurrence, holding that member's groups. *)
Lemma invert_spec (gm : GroupMembership) :
  invert gm =
  map (fun user => (user, groups_containing user gm))
    (first_occurrences (all_members gm)).
Proof.
  rewrite invert_occurrences, fold_invert_step by constructor.
  simpl. unfold fresh_of. rewrite filter_all by reflexivity.
  rewrite occurrences_users.
  apply map_ext. intros u. now rewrite groups_of_occurrences.
Qed.

Lemma filter_map_swap {A B} (P : B -> bool) (f : A -> B) (l : list A) :
  filter P (map f l) = map f (filter (fun x => P (f x)) l).
Proof.
  induction l as [|x l IH]; simpl; [reflexivity|].
  destruct (P (f x)); simpl; now rewrite IH.
Qed.

Lemma analyze_spec (gm : GroupMembership) (min_groups : Z) :
  analyze_user_groups gm min_groups =
  map (fun user => (user, groups_containing user gm))
    (filter (qualifies gm min_groups) (first_occurrences (all_members gm))).
Proof.
  unfold analyze_user_groups. rewrite invert_spec, filter_map_swap.
  reflexivity.
Qed.

Lemma keys_tabulate {V} (f : string -> V) (l : list string) :
  Dict.keys (map (fun k => (k, f k)) l) = l.
Proof. unfold Dict.keys. rewrite map_map. simpl. apply map_id. Qed.

Lemma get_tabulate {V} (f : string -> V) (l : list string) (k : string) :
  Dict.get k (map (fun k => (k, f k)) l) =
  if mem k l then Some (f k) else None.
Proof.
  induction l as [|x l IH]; simpl; [reflexivity|].
  rewrite (String.eqb_sym k x).
  destruct (String.eqb x k) eqn:E; simpl; [|assumption].
  apply String.eqb_eq in E. now subst.
Qed.

Lemma first_occurrences_In (l : list string) (x : string) :
  In x (first_occurrences l) <-> In x l.
Proof.
  induction l as [|y l IH]; simpl; [tauto|].
  rewrite filter_In, IH, negb_true_iff, String.eqb_neq.
  destruct (string_dec y x); [subst|]; intuition congruence.
Qed.

Lemma first_occurrences_NoDup (l : list string) : NoDup (first_occurrences l).
Proof.
  induction l as [|y l IH]; simpl; constructor.
  - rewrite filter_In, String.eqb_refl. simpl. intros [_ H]. discriminate.
  - now apply NoDup_filter.
Qed.

Lemma all_members_In (gm : GroupMembership) (user : string) :
  In user (all_members gm) <->
  exists group users, In (group, users) gm /\ In user users.
Proof.
  unfold all_members. rewrite in_flat_map. split.
  - intros ([g us] & Hin & Hu). eauto.
  - intros (g & us & Hin & Hu). exists (g, us). auto.
Qed.

Lemma groups_containing_count (user group : string) (gm : GroupMembership) :
  forall users,
    NoDup (Dict.keys gm) -> In (group, users) gm ->
    count_occ string_dec (groups_containing user gm) group =
    count_occ string_dec users user.
Proof.
  unfold groups_containing.
  induction gm as [|[g us] gm IH]; simpl; intros users Hnd Hin; [contradiction|].
  inversion Hnd as [|? ? Hk Hd]; subst.
  rewrite count_occ_app.
  assert (Hrest : forall l, ~ In group (Dict.keys l) ->
            count_occ string_dec
              (flat_map (fun '(group0, users0) =>
                 repeat group0 (count_occ string_dec users0 user)) l) group = 0).
  { induction l as [|[g' us'] l IHl]; simpl; intros H; [reflexivity|].
    rewrite count_occ_app, IHl by tauto.
    rewrite (proj1 (count_occ_not_In string_dec _ _)); [reflexivity|].
    intros Hr. apply repeat_spec in Hr. subst. tauto. }
  destruct Hin as [E|Hin].
  - injection E as -> ->. rewrite (Hrest gm Hk).
    rewrite count_occ_repeat_eq by reflexivity. lia.
  - rewrite (IH users Hd Hin).
    rewrite (proj1 (count_occ_not_In string_dec _ _)); [reflexivity|].
    intros Hr. apply repeat_spec in Hr. apply Hk. rewrite <- Hr.
    change group with (fst (group, users)). now apply in_map.
Qed.

Lemma groups_containing_length (user group : string) (gm : GroupMembership)
    (users : list string) :
  In (group, users) gm ->
  count_occ string_dec users user <= List.length (groups_containing user gm).
Proof.
  unfold groups_containing.
  induction gm as [|[g us] gm IH]; simpl; intros Hin; [contradiction|].
  rewrite length_app, repeat_length.
  destruct Hin as [E|Hin]; [injection E as -> ->; lia|].
  specialize (IH Hin). lia.
Qed.

Lemma groups_containing_nonempty (user : string) (gm : GroupMembership) :
  In user (all_members gm) -> groups_containing user gm <> [].
Proof.
  rewrite all_members_In. intros (g & us & Hin & Hu) E.
  pose proof (groups_containing_length user g gm us Hin) as Hle.
  rewrite E in Hle. simpl in Hle.
  apply (count_occ_In string_dec) in Hu. lia.
Qed.

(** ** The report writer and the orchestrator *)

Lemma for_each_print (lines : list string) :
  forall w : World,
    for_each lines print w =
    ({| logged := logged w;
        printed := printed w ++ lines;
        written := written w |}, inl tt).
Proof.
  induction lines as [|l ls IH]; intros w; simpl.
  - unfold ret. rewrite app_nil_r. now destruct w.
  - unfold bind, print. rewrite IH. simpl. now rewrite <- app_assoc.
Qed.

Lemma write_output_console (env : Env) (d : UserGroupIndex)
    (output_file : option string) (w : World) :
  truthy output_file = false ->
  write_output env d output_file w =
  ({| logged := logged w;
      printed := printed w ++ output_lines d;
      written := written w |}, inl tt).
Proof.
  unfold truthy, write_output. destruct output_file as [path|]; intros H.
  - rewrite H. apply for_each_print.
  - apply for_each_print.
Qed.

Lemma write_output_file (env : Env) (d : UserGroupIndex) (path : string)
    (w : World) :
  Str.falsy path = false ->
  open_w env path = None ->
  write_output env d (Some path) w =
  ({| logged := logged w ++ [(INFO, "Analysis results written to: " ++ path)%string];
      printed := printed w;
      written := Some (path, file_text (output_lines d)) |}, inl tt).
Proof.
  intros Hp Ho. unfold write_output, try_except, bind, write_lines.
  rewrite Hp, Ho. reflexivity.
Qed.

Lemma write_output_fails (env : Env) (d : UserGroupIndex) (path : string)
    (w : World) (k : oserror) (msg : string) :
  Str.falsy path = false ->
  open_w env path = Some (k, msg) ->
  write_output env d (Some path) w =
  (log_more w [(ERROR, "Error writing to output file: " ++ msg)%string],
   inl tt).
Proof.
  intros Hp Ho. unfold write_output, try_except, bind, write_lines.
  rewrite Hp, Ho. reflexivity.
Qed.


Lemma parse_group_file_ok (env : Env) (path content : string) (w : World) :
  open_r env path = inl content ->
  parse_group_file env path w =
  (log_more w (complaints (Str.lines content)),
   inl (fold_left store (Str.lines content) [])).
Proof.
  intros Ho. unfold parse_group_file, try_except, bind, open_read.
  rewrite Ho. unfold ret. now rewrite parse_lines_spec.
Qed.

(** Past the two validations and with a readable file, [main] is the
    report writer run on the analysis of the parsed lines. *)
Lemma main_parsed (env : Env) (args : Args) (content : string) :
  isfile env (group_file args) = true ->
  (0 < min_groups args)%Z ->
  open_r env (group_file args) = inl content ->
  main env args initial =
  write_output env
    (analyze_user_groups (fold_left store (Str.lines content) [])
       (min_groups args))
    (output args)
    (log_more initial (complaints (Str.lines content))).
Proof.
  intros Hf Hm Ho. unfold main. rewrite Hf. simpl.
  destruct (Z.leb_spec (min_groups args) 0); [lia|].
  unfold bind. now rewrite (parse_group_file_ok env _ content initial Ho).
Qed.

(** ** The claims *)

(** C1. On the file of the four lines [admin:user1,user2,user3],
    [developers:user2,user4], [testers:user3,user4,user5] and
    [support:user1,user5], with the default threshold 2, the parser returns
    the four groups, the analysis returns the five users with the group
    lists [admin, support], [admin, developers], [admin, testers],
    [developers, testers] and [testers, support], and the process prints
    exactly five lines [User: <user>, Groups: <groups joined by ", ">],
    logs nothing and exits with status 0. *)
Theorem concrete_scenario :
  Str.lines example_file =
    map (fun l => (l ++ nl)%string)
      ["admin:user1,user2,user3"; "developers:user2,user4";
       "testers:user3,user4,user5"; "support:user1,user5"] /\
  parse_group_file (env_with example_file) "groups.txt" initial =
    (initial,
     inl [("admin", ["user1"; "user2"; "user3"]);
          ("developers", ["user2"; "user4"]);
          ("testers", ["user3"; "user4"; "user5"]);
          ("support", ["user1"; "user5"])]) /\
  analyze_user_groups
    [("admin", ["user1"; "user2"; "user3"]);
     ("developers", ["user2"; "user4"]);
     ("testers", ["user3"; "user4"; "user5"]);
     ("support", ["user1"; "user5"])] 2 =
    [("user1", ["admin"; "support"]);
     ("user2", ["admin"; "developers"]);
     ("user3", ["admin"; "testers"]);
     ("user4", ["developers"; "testers"]);
     ("user5", ["testers"; "support"])] /\
  run (env_with example_file) default_args =
    ({| logged := [];
        printed :=
          ["User: user1, Groups: admin, support";
           "User: user2, Groups: admin, developers";
           "User: user3, Groups: admin, testers";
           "User: user4, Groups: developers, testers";
           "User: user5, Groups: testers, support"];
        written := None |}, 0%Z) /\
  List.length (printed (fst (run (env_with example_file) default_args))) = 5.
Proof. repeat split; vm_compute; reflexivity. Qed.

(** C2. At threshold 1, for a group mapping whose member lists are all
    non-empty, the keys of the result are exactly the users that occur in
    some member list, each of them exactly once, and the group list of such
    a user is, as a multiset, the group names of all the occurrences of
    that user (each group once per occurrence in its member list). *)
Theorem roundtrip_threshold_1 (gm : GroupMembership)
    (Hne : Forall (fun entry => snd entry <> []) gm) (user : string) :
  (In user (Dict.keys (analyze_user_groups gm 1)) <->
   exists group users, In (group, users) gm /\ In user users) /\
  ((exists group users, In (group, users) gm /\ In user users) ->
   count_occ string_dec (Dict.keys (analyze_user_groups gm 1)) user = 1 /\
   exists groups,
     Dict.get user (analyze_user_groups gm 1) = Some groups /\
     Permutation groups (groups_containing user gm) /\
     forall group,
       count_occ string_dec groups group =
       list_sum
         (map (fun entry =>
                 if string_dec (fst entry) group
                 then count_occ string_dec (snd entry) user else 0) gm)).
Proof.
  assert (Hall : filter (qualifies gm 1) (first_occurrences (all_members gm))
                 = first_occurrences (all_members gm)).
  { apply filter_all. intros u Hu.
    apply (proj1 (first_occurrences_In _ _)) in Hu.
    apply groups_containing_nonempty in Hu. unfold qualifies.
    destruct (groups_containing u gm); [congruence|]. simpl List.length.
    apply Z.geb_le. lia. }
  rewrite analyze_spec, Hall, keys_tabulate.
  rewrite first_occurrences_In, all_members_In.
  split; [tauto|]. intros Hin.
  assert (Hm : In user (first_occurrences (all_members gm)))
    by now rewrite first_occurrences_In, all_members_In.
  split.
  - apply NoDup_count_1; [apply first_occurrences_NoDup | assumption].
  - exists (groups_containing user gm).
    rewrite get_tabulate. apply mem_In in Hm. rewrite Hm.
    repeat split; [apply Permutation_refl|].
    intros group. unfold groups_containing. clear.
    induction gm as [|[g us] gm IH]; simpl; [reflexivity|].
    rewrite count_occ_app, IH. f_equal.
    destruct (string_dec g group) as [->|Hne].
    + now rewrite count_occ_repeat_eq.
    + now rewrite count_occ_repeat_neq.
Qed.

Lemma roundtrip_threshold_1_witness :
  Forall (fun entry : string * list string => snd entry <> [])
    [("ops", ["ann"; "bob"]); ("dev", ["bob"])] /\
  count_occ string_dec
    (Dict.keys
       (analyze_user_groups [("ops", ["ann"; "bob"]); ("dev", ["bob"])] 1))
    "bob" = 1.
Proof.
  assert (H : Forall (fun entry : string * list string => snd entry <> [])
                [("ops", ["ann"; "bob"]); ("dev", ["bob"])])
    by (repeat constructor; simpl; discriminate).
  split; [exact H|].
  apply (proj2 (roundtrip_threshold_1 _ H "bob")).
  exists "dev", ["bob"]. simpl. auto.
Defined.

(** C3. Threshold monotonicity: for thresholds [t1 < t2], every user
    reported at [t2] is reported at [t1]. *)
Theorem threshold_monotonicity (gm : GroupMembership) (t1 t2 : Z)
    (Hlt : (t1 < t2)%Z) :
  incl (Dict.keys (analyze_user_groups gm t2))
       (Dict.keys (analyze_user_groups gm t1)).
Proof.
  intros user. rewrite !analyze_spec, !keys_tabulate, !filter_In.
  unfold qualifies. intros [Hin Hq]. split; [assumption|].
  apply Z.geb_le. apply Z.geb_le in Hq. lia.
Qed.

Lemma threshold_monotonicity_witness :
  (2 < 3)%Z /\
  incl
    (Dict.keys
       (analyze_user_groups
          [("a", ["x"; "y"]); ("b", ["x"; "y"]); ("c", ["x"])] 3))
    (Dict.keys
       (analyze_user_groups
          [("a", ["x"; "y"]); ("b", ["x"; "y"]); ("c", ["x"])] 2)).
Proof.
  split; [lia|]. apply threshold_monotonicity. lia.
Defined.

(** C5. Membership counts with multiplicity: when [user] occurs [k > 1]
    times in the member list of [group], the inversion holds [group]
    exactly [k] times in the list of [user], and these repeats count: the
    user is reported at every threshold up to [k], in particular at 2,
    whatever the other groups are. *)
Theorem multiplicity_counts (gm : GroupMembership) (group user : string)
    (users : list string) (k : nat)
    (Hdict : NoDup (Dict.keys gm))
    (Hin : In (group, users) gm)
    (Hk : count_occ string_dec users user = k)
    (Hgt : 1 < k) :
  exists groups,
    Dict.get user (invert gm) = Some groups /\
    count_occ string_dec groups group = k /\
    (forall t, (t <= Z.of_nat k)%Z ->
       Dict.get user (analyze_user_groups gm t) = Some groups) /\
    Dict.get user (analyze_user_groups gm 2) = Some groups.
Proof.
  exists (groups_containing user gm).
  assert (Hu : In user users) by (apply (count_occ_In string_dec); lia).
  assert (Hm : mem user (first_occurrences (all_members gm)) = true).
  { apply mem_In, first_occurrences_In, all_members_In. eauto. }
  assert (Hg : Dict.get user (invert gm) = Some (groups_containing user gm)).
  { rewrite invert_spec, get_tabulate. now rewrite Hm. }
  pose proof (groups_containing_length user group gm users Hin) as Hlen.
  assert (Hq : forall t, (t <= Z.of_nat k)%Z ->
            Dict.get user (analyze_user_groups gm t) =
            Some (groups_containing user gm)).
  { intros t Ht. unfold analyze_user_groups.
    apply get_filter; [assumption|]. apply Z.geb_le. lia. }
  repeat split.
  - assumption.
  - rewrite <- Hk. now apply groups_containing_count.
  - assumption.
  - apply Hq. lia.
Qed.

Lemma multiplicity_counts_witness :
  Dict.get "bob" (analyze_user_groups [("ops", ["bob"; "ann"; "bob"])] 2) =
  Some ["ops"; "ops"].
Proof.
  destruct (multiplicity_counts [("ops", ["bob"; "ann"; "bob"])]
              "ops" "bob" ["bob"; "ann"; "bob"] 2)
    as (groups & Hget & _ & _ & H2).
  - repeat constructor. simpl. tauto.
  - simpl. auto.
  - reflexivity.
  - lia.
  - rewrite H2. rewrite <- Hget. reflexivity.
Defined.



Lemma classify_cases (line : string) :
  (well_formed line = false /\ malformed line = false /\
   classify line = Skipped) \/
  (well_formed line = false /\ malformed line = true /\
   classify line = Malformed (Str.strip line)) \/
  (well_formed line = true /\ malformed line = false /\
   exists group users, classify line = Entry group users).
Proof.
  unfold well_formed, malformed.
  destruct (significant line) eqn:Hs; simpl.
  - destruct (has_colon line) eqn:Hc; simpl.
    + right. right. destruct (classify_entry line Hs Hc) as (a & b & _ & _ & E).
      eauto.
    + right. left. auto using classify_malformed.
  - left. auto using classify_skipped.
Qed.


Lemma complaints_malformed (lines : list string) :
  complaints lines =
  map (fun l => invalid_line (Str.strip l)) (filter malformed lines).
Proof.
  induction lines as [|l ls IH]; simpl; [reflexivity|].
  destruct (classify_cases l)
    as [(_ & B & E)|[(_ & B & E)|(_ & B & g & us & E)]];
    rewrite B, E; simpl; now rewrite IH.
Qed.


Lemma NoDup_keys_store (lines : list string) :
  forall gm, NoDup (Dict.keys gm) -> NoDup (Dict.keys (fold_left store lines gm)).
Proof.
  induction lines as [|l ls IH]; intros gm H; simpl; [assumption|].
  apply IH. unfold store. destruct (classify l); auto using NoDup_keys_set.
Qed.

Lemma get_store_other (group : string) (lines : list string) :
  Forall (fun l => names_group group l = false) lines ->
  forall gm,
    Dict.get group (fold_left store lines gm) = Dict.get group gm.
Proof.
  induction 1 as [|l ls Hl _ IH]; intros gm; simpl; [reflexivity|].
  rewrite IH. unfold store. unfold names_group in Hl.
  destruct (classify l) as [| |g us]; try reflexivity.
  apply String.eqb_neq in Hl. apply get_set_other. congruence.
Qed.

(** C6. Last write wins: when [line] is a well-formed line for [group] and
    no later line is, the mapping that the parser returns gives [group]
    exactly the member list of [line], whatever lines for the same group
    come before it; [group] is a key once only, so no earlier member list
    of it is left in the mapping. *)
Theorem last_write_wins (before after : list string) (line group : string)
    (users : list string)
    (Hline : classify line = Entry group users)
    (Hlast : Forall (fun l => names_group group l = false) after) :
  forall w,
    exists gm,
      parse_lines (before ++ line :: after) [] w =
        (log_more w (complaints (before ++ line :: after)), inl gm) /\
      Dict.get group gm = Some users /\
      count_occ string_dec (Dict.keys gm) group = 1 /\
      (forall users', In (group, users') gm -> users' = users).
Proof.
  intros w. exists (fold_left store (before ++ line :: after) []).
  assert (Hnd : NoDup (Dict.keys (fold_left store (before ++ line :: after) [])))
    by (apply NoDup_keys_store; constructor).
  assert (Hget : Dict.get group (fold_left store (before ++ line :: after) [])
                 = Some users).
  { rewrite fold_left_app. simpl. rewrite (get_store_other group after Hlast).
    unfold store at 1. rewrite Hline. apply get_set_same. }
  split; [apply parse_lines_spec|]. split; [exact Hget|]. split.
  - apply NoDup_count_1; [assumption|].
    apply get_In in Hget. change group with (fst (group, users)).
    now apply in_map.
  - intros users' Hin. apply (In_get _ _ _ Hnd) in Hin. congruence.
Qed.

Lemma last_write_wins_witness :
  exists gm,
    parse_lines ["g:old"; "h:x"; " g : new1, new2"; "h:y"] [] initial =
      (initial, inl gm) /\
    Dict.get "g" gm = Some ["new1"; "new2"].
Proof.
  destruct (last_write_wins ["g:old"; "h:x"] ["h:y"] " g : new1, new2" "g"
              ["new1"; "new2"] eq_refl) with (w := initial)
    as (gm & Hp & Hg & _).
  - repeat constructor.
  - exists gm. split; [|exact Hg].
    etransitivity; [exact Hp | reflexivity].
Defined.

(** C7. Empty members are dropped: the line [g:alice,, bob ,] gives the
    group [g] exactly the members [alice] and [bob]. In general, for a
    line that is not skipped and whose trimmed form is [group_name], a
    [:], and [users_str] with no [:] in [group_name], the parser stores
    under the trimmed [group_name] the pieces of [users_str] between its
    commas, each trimmed, without those that are empty after trimming, and
    logs nothing. *)
Theorem empty_member_filtering :
  parse_lines ["g:alice,, bob ,"] [] initial =
    (initial, inl [("g", ["alice"; "bob"])]) /\
  forall line group_name users_str,
    significant line = true ->
    Str.strip line = (group_name ++ String ":" users_str)%string ->
    Str.contains ":" group_name = false ->
    (forall gm w,
       parse_line line gm w =
       (w, inl (Dict.set (Str.strip group_name)
                  (filter (fun user => negb (Str.falsy user))
                     (map Str.strip (Str.split "," users_str)))
                  gm))) /\
    Str.join "," (Str.split "," users_str) = users_str /\
    Forall (fun piece => Str.contains "," piece = false)
      (Str.split "," users_str).
Proof.
  split; [reflexivity|].
  intros line group_name users_str Hsig Hline Hname.
  split; [|split; [apply split_join | apply split_pieces]].
  intros gm w. rewrite parse_line_classify.
  assert (Hc : has_colon line = true).
  { unfold has_colon. rewrite Hline. clear.
    induction group_name as [|c s IH]; simpl; [reflexivity|].
    rewrite IH. apply orb_true_r. }
  destruct (classify_entry line Hsig Hc) as (a & b & Ha & Hna & E).
  assert (Hab : a = group_name /\ b = users_str).
  { rewrite Hline in Ha. clear - Ha Hna Hname.
    revert a Ha Hna. induction group_name as [|c s IH]; intros a Ha Hna.
    - destruct a as [|c' a']; simpl in *.
      + injection Ha as <-. auto.
      + injection Ha as <- _. rewrite Ascii.eqb_refl in Hna. discriminate.
    - simpl in Hname. apply orb_false_iff in Hname as [Hc Hs].
      destruct a as [|c' a']; simpl in *.
      + injection Ha as -> _. rewrite Ascii.eqb_refl in Hc. discriminate.
      + injection Ha as Hcc Ha. apply orb_false_iff in Hna as [_ Hna].
        destruct (IH Hs a' Ha Hna) as [-> ->]. subst. auto. }
  destruct Hab as [-> ->]. rewrite E.
  now rewrite users_of_trim_then_drop.
Qed.

Lemma empty_member_filtering_witness :
  parse_line "  g:alice,, bob ,  " [("g", ["carol"])] initial =
  (initial, inl [("g", ["alice"; "bob"])]).
Proof.
  rewrite (proj1 (proj2 empty_member_filtering "  g:alice,, bob ,  "
                    "g" "alice,, bob ," eq_refl eq_refl eq_refl)).
  reflexivity.
Defined.

(** C8, as stated, fails: a group file that exists and cannot be read
    (permission denied) makes [open] raise an [OSError] that is not a
    [FileNotFoundError]; the handler of line 78 does not catch it, so the
    process ends with status 1 on the uncaught exception and no record has
    gone through [logging]. *)
Lemma unreadable_file_is_not_logged :
  fatal_failure env_unreadable default_args /\
  run env_unreadable default_args = (initial, 1%Z) /\
  ~ fatal_failures_are_logged.
Proof.
  assert (Hf : fatal_failure env_unreadable default_args).
  { right. left. simpl. eauto. }
  split; [exact Hf|]. split; [reflexivity|].
  intros H. destruct (H _ _ Hf) as ((msg & Hin) & _). exact Hin.
Qed.

(** C8, amended. In each of the fatal failures the process ends with
    status 1 and has produced no report, neither on the console nor in a
    file. Exactly one error is logged when the path is not an existing
    file, when [--min-groups] is not positive, and when the file has
    vanished between the check and the [open] ([FileNotFoundError]); any
    other failure of the [open] leaves the process through the uncaught
    exception, with nothing logged. *)
Theorem fatal_failures (env : Env) (args : Args)
    (Hfail : fatal_failure env args) :
  snd (run env args) = 1%Z /\
  printed (fst (run env args)) = [] /\
  written (fst (run env args)) = None /\
  (isfile env (group_file args) = false ->
   logged (fst (run env args)) =
   [(ERROR, ("Group file does not exist: " ++ group_file args)%string)]) /\
  (isfile env (group_file args) = true -> (min_groups args <= 0)%Z ->
   logged (fst (run env args)) =
   [(ERROR, "Minimum groups must be a positive integer.")]) /\
  (isfile env (group_file args) = true -> (0 < min_groups args)%Z ->
   forall k msg,
     open_r env (group_file args) = inr (k, msg) ->
     (k = FileNotFound ->
      logged (fst (run env args)) =
      [(ERROR, ("Group file not found: " ++ group_file args)%string)]) /\
     (k <> FileNotFound ->
      logged (fst (run env args)) = [] /\
      main env args initial = (initial, inr (OSErr k msg)))).
Proof.
  unfold run, main.
  destruct (isfile env (group_file args)) eqn:Hf; simpl.
  2:{ repeat split; intros; try reflexivity; try discriminate. }
  destruct (Z.leb_spec (min_groups args) 0) as [Hm|Hm]; simpl.
  { repeat split; intros; try reflexivity; try discriminate; lia. }
  destruct Hfail as [Hfail|[(e & Ho)|Hfail]]; [congruence| |lia].
  destruct e as [k msg].
  unfold bind, parse_group_file, try_except, open_read. rewrite Ho.
  assert (Hk : forall k' msg', inr (k, msg) = inr (A := string) (k', msg') ->
                 k' = k /\ msg' = msg)
    by (intros k' msg' [= -> ->]; auto).
  destruct k; simpl; repeat split; intros; try reflexivity; try lia;
    match goal with
    | H : inr _ = inr _ |- _ => apply Hk in H as [-> ->]
    end; simpl; congruence.
Qed.

Lemma fatal_failures_witness :
  fatal_failure env_missing default_args /\
  snd (run env_missing default_args) = 1%Z.
Proof.
  assert (Hf : fatal_failure env_missing default_args) by (left; reflexivity).
  split; [exact Hf|]. exact (proj1 (fatal_failures _ _ Hf)).
Defined.

(** C9. A report file that cannot be opened or written is not fatal and
    there is no fallback: when the validations pass, the group file is
    read and [--output] names (by a non-empty path) a file whose opening or
    writing raises an [OSError], the report writer logs one error after
    the parser's records, returns without raising, nothing is printed on
    the console, no report file is completed, and the status is 0. *)
Theorem output_failure_is_not_fatal (env : Env) (args : Args)
    (content path : string) (k : oserror) (msg : string)
    (Hf : isfile env (group_file args) = true)
    (Hm : (0 < min_groups args)%Z)
    (Ho : open_r env (group_file args) = inl content)
    (Hout : output args = Some path)
    (Hp : Str.falsy path = false)
    (Hw : open_w env path = Some (k, msg)) :
  main env args initial =
    ({| logged :=
          complaints (Str.lines content) ++
          [(ERROR, ("Error writing to output file: " ++ msg)%string)];
        printed := [];
        written := None |}, inl tt) /\
  snd (run env args) = 0%Z.
Proof.
  assert (E : main env args initial =
    ({| logged :=
          complaints (Str.lines content) ++
          [(ERROR, ("Error writing to output file: " ++ msg)%string)];
        printed := [];
        written := None |}, inl tt)).
  { rewrite (main_parsed env args content Hf Hm Ho), Hout.
    now rewrite (write_output_fails env _ path _ k msg Hp Hw). }
  split; [exact E|]. unfold run. now rewrite E.
Qed.

Lemma output_failure_is_not_fatal_witness :
  run (env_readonly example_file)
    {| group_file := "groups.txt"; output := Some "report.txt";
       min_groups := 2 |} =
  ({| logged :=
        [(ERROR,
          "Error writing to output file: [Errno 13] Permission denied: 'report.txt'")];
      printed := [];
      written := None |}, 0%Z).
Proof.
  pose proof (output_failure_is_not_fatal (env_readonly example_file)
    {| group_file := "groups.txt"; output := Some "report.txt";
       min_groups := 2 |}
    example_file "report.txt" PermissionDenied
    (permission_denied "report.txt")
    eq_refl eq_refl eq_refl eq_refl eq_refl eq_refl) as [Hmain Hstatus].
  unfold run in *. rewrite Hmain. reflexivity.
Defined.

(** ** Further properties of the parser *)

Lemma lstrip_head (s : string) : head_ok (Str.lstrip s) = true.
Proof.
  induction s as [|c s IH]; simpl; [reflexivity|].
  destruct (Str.isspace c) eqn:E; [assumption|]. simpl. now rewrite E.
Qed.

Lemma lstrip_fix (s : string) : head_ok s = true -> Str.lstrip s = s.
Proof.
  destruct s as [|c s]; simpl; [reflexivity|].
  intros H. apply negb_true_iff in H. now rewrite H.
Qed.

Lemma rstrip_head (s : string) :
  head_ok s = true -> head_ok (Str.rstrip s) = true.
Proof.
  destruct s as [|c s]; simpl; [reflexivity|]. intros H.
  destruct (Str.rstrip s); simpl; [|assumption].
  apply negb_true_iff in H. rewrite H. simpl. now rewrite H.
Qed.

Lemma rstrip_idem (s : string) : Str.rstrip (Str.rstrip s) = Str.rstrip s.
Proof.
  induction s as [|c s IH]; simpl; [reflexivity|].
  destruct (Str.rstrip s) as [|c' r] eqn:E.
  - destruct (Str.isspace c) eqn:Hc; simpl; [reflexivity|]. now rewrite Hc.
  - simpl in *. now rewrite IH.
Qed.

Lemma strip_idem (s : string) : Str.strip (Str.strip s) = Str.strip s.
Proof.
  unfold Str.strip.
  rewrite (lstrip_fix (Str.rstrip (Str.lstrip s)))
    by apply rstrip_head, lstrip_head.
  apply rstrip_idem.
Qed.

Lemma contains_lstrip (c : ascii) (s : string) :
  Str.contains c s = false -> Str.contains c (Str.lstrip s) = false.
Proof.
  induction s as [|c' s IH]; simpl; [reflexivity|]. intros H.
  destruct (Str.isspace c'); [|assumption].
  apply orb_false_iff in H as [_ H]. auto.
Qed.

Lemma contains_rstrip (c : ascii) (s : string) :
  Str.contains c s = false -> Str.contains c (Str.rstrip s) = false.
Proof.
  induction s as [|c' s IH]; simpl; [reflexivity|]. intros H.
  apply orb_false_iff in H as [Hc Hs]. specialize (IH Hs).
  destruct (Str.rstrip s) as [|c'' r].
  - destruct (Str.isspace c'); simpl; [reflexivity|]. now rewrite Hc.
  - simpl in *. now rewrite Hc, IH.
Qed.

Lemma contains_strip (c : ascii) (s : string) :
  Str.contains c s = false -> Str.contains c (Str.strip s) = false.
Proof. intros H. now apply contains_rstrip, contains_lstrip. Qed.

Lemma lstrip_all_space (s : string) :
  all_space s = true -> Str.lstrip s = "".
Proof.
  induction s as [|c s IH]; simpl; [reflexivity|]. intros H.
  apply andb_true_iff in H as [Hc Hs]. rewrite Hc. auto.
Qed.

Lemma rstrip_all_space (s : string) :
  all_space s = true -> Str.rstrip s = "".
Proof.
  induction s as [|c s IH]; simpl; [reflexivity|]. intros H.
  apply andb_true_iff in H as [Hc Hs]. now rewrite (IH Hs), Hc.
Qed.

Lemma lstrip_pad (pre s : string) :
  all_space pre = true -> Str.lstrip (pre ++ s) = Str.lstrip s.
Proof.
  induction pre as [|c pre IH]; simpl; [reflexivity|]. intros H.
  apply andb_true_iff in H as [Hc Hs]. rewrite Hc. auto.
Qed.

Lemma rstrip_pad (s post : string) :
  all_space post = true -> Str.rstrip (s ++ post) = Str.rstrip s.
Proof.
  intros H. induction s as [|c s IH]; simpl.
  - now apply rstrip_all_space.
  - now rewrite IH.
Qed.

Lemma strip_pad (pre s post : string) :
  all_space pre = true -> all_space post = true ->
  Str.strip (pre ++ s ++ post) = Str.strip s.
Proof.
  intros Hpre Hpost. unfold Str.strip. rewrite (lstrip_pad pre _ Hpre).
  clear pre Hpre. induction s as [|c s IH]; simpl.
  - now rewrite (lstrip_all_space post Hpost).
  - destruct (Str.isspace c); [assumption|].
    change (String c (s ++ post)) with (String c s ++ post)%string.
    now apply rstrip_pad.
Qed.

(** The parser reads a line through [strip] alone: whitespace put around a
    line, the line terminator included, changes neither what is stored nor
    what is logged; and a line already trimmed is parsed as it is. *)
Theorem padding_is_irrelevant (pre line post : string)
    (Hpre : all_space pre = true) (Hpost : all_space post = true) :
  forall gm w,
    parse_line (pre ++ line ++ post) gm w = parse_line line gm w /\
    parse_line (line ++ nl) gm w = parse_line line gm w /\
    parse_line (Str.strip line) gm w = parse_line line gm w.
Proof.
  intros gm w. unfold parse_line.
  rewrite (strip_pad pre line post Hpre Hpost), strip_idem.
  replace (Str.strip (line ++ nl)) with (Str.strip line); [auto|].
  symmetry. apply (strip_pad "" line nl); reflexivity.
Qed.

Lemma padding_is_irrelevant_witness :
  parse_line ("   " ++ "ops: ann ,bob" ++ "  " ++ nl)%string [] initial =
  (initial, inl [("ops", ["ann"; "bob"])]).
Proof.
  rewrite (proj1 (padding_is_irrelevant "   " "ops: ann ,bob" ("  " ++ nl)
                    eq_refl eq_refl [] initial)).
  reflexivity.
Defined.

Lemma complaints_significant (lines : list string) :
  complaints (filter significant lines) = complaints lines.
Proof.
  induction lines as [|l ls IH]; simpl; [reflexivity|].
  destruct (significant l) eqn:E; simpl; [now rewrite IH|].
  now rewrite (classify_skipped l E).
Qed.

Lemma fold_store_significant (lines : list string) :
  forall d,
    fold_left store (filter significant lines) d = fold_left store lines d.
Proof.
  induction lines as [|l ls IH]; intros d; simpl; [reflexivity|].
  destruct (significant l) eqn:E; simpl; [apply IH|].
  replace (store d l) with d; [apply IH|].
  unfold store. now rewrite (classify_skipped l E).
Qed.

(** Blank lines and comment lines leave no trace: the parser returns the
    same mapping and logs the same records as on the file without them. *)
Theorem skipped_lines_leave_no_trace (lines : list string) :
  forall gm w,
    parse_lines lines gm w = parse_lines (filter significant lines) gm w.
Proof.
  intros gm w. rewrite !parse_lines_spec.
  now rewrite complaints_significant, fold_store_significant.
Qed.

Lemma In_set {V} (k k' : string) (v v' : V) (d : Dict.t V) :
  In (k', v') (Dict.set k v d) -> (k', v') = (k, v) \/ In (k', v') d.
Proof.
  induction d as [|[k0 v0] d IH]; simpl.
  - intros [E|[]]. now left.
  - destruct (String.eqb k0 k) eqn:E; simpl.
    + apply String.eqb_eq in E. subst k0. intros [H|H]; auto.
    + intros [H|H]; auto. destruct (IH H); auto.
Qed.

Lemma users_of_clean (users_str : string) :
  Forall clean_user (users_of users_str).
Proof.
  unfold users_of. apply Forall_forall. intros u Hu.
  apply in_map_iff in Hu as (p & <- & Hp).
  apply filter_In in Hp as [Hp Hne].
  pose proof (split_pieces "," users_str) as Hall.
  rewrite Forall_forall in Hall. specialize (Hall p Hp).
  repeat split.
  - intros E. rewrite E in Hne. discriminate.
  - apply strip_idem.
  - now apply contains_strip.
Qed.

Lemma classify_entry_clean (line group : string) (users : list string) :
  classify line = Entry group users ->
  clean_group group /\ Forall clean_user users.
Proof.
  intros E.
  destruct (classify_cases line)
    as [(_ & _ & E')|[(_ & _ & E')|(W & _ & _)]]; try congruence.
  unfold well_formed in W. apply andb_true_iff in W as [Hs Hc].
  destruct (classify_entry line Hs Hc) as (a & b & _ & Ha & E').
  rewrite E' in E. injection E as <- <-.
  split; [split|].
  - apply strip_idem.
  - now apply contains_strip.
  - apply users_of_clean.
Qed.

Lemma fold_store_clean (lines : list string) :
  forall gm,
    Forall (fun entry => clean_group (fst entry) /\
                         Forall clean_user (snd entry)) gm ->
    Forall (fun entry => clean_group (fst entry) /\
                         Forall clean_user (snd entry))
      (fold_left store lines gm).
Proof.
  induction lines as [|l ls IH]; intros gm H; simpl; [assumption|].
  apply IH. unfold store. destruct (classify l) as [| |g us] eqn:E;
    try assumption.
  apply Forall_forall. intros [g' us'] Hin.
  apply In_set in Hin as [Heq|Hin].
  - injection Heq as -> ->. simpl. now apply (classify_entry_clean l).
  - rewrite Forall_forall in H. now apply H.
Qed.

(** What the parser stores is sanitised: every group name of the returned
    mapping is trimmed and holds no [:]; every member is non-empty, trimmed
    and holds no [,]. (A group name may hold commas and a member may hold
    colons.) *)
Theorem parsed_names_are_clean (lines : list string) (w : World) :
  exists w' gm,
    parse_lines lines [] w = (w', inl gm) /\
    forall group users,
      In (group, users) gm ->
      clean_group group /\ Forall clean_user users.
Proof.
  exists (log_more w (complaints lines)), (fold_left store lines []).
  split; [apply parse_lines_spec|]. intros group users Hin.
  pose proof (fold_store_clean lines [] (Forall_nil _)) as H.
  rewrite Forall_forall in H. exact (H _ Hin).
Qed.

Lemma filter_seen_old (g : string) (seen l : list string) :
  In g seen ->
  filter (fun y => negb (mem y seen))
    (filter (fun y => negb (String.eqb y g)) l) =
  filter (fun y => negb (mem y seen)) l.
Proof.
  intros Hg. induction l as [|y l IH]; simpl; [reflexivity|].
  destruct (String.eqb y g) eqn:E; simpl.
  - apply String.eqb_eq in E. subst y. apply mem_In in Hg. now rewrite Hg.
  - now rewrite IH.
Qed.

Lemma filter_seen_new (g : string) (seen l : list string) :
  filter (fun y => negb (mem y seen))
    (filter (fun y => negb (String.eqb y g)) l) =
  filter (fun y => negb (mem y (seen ++ [g]))) l.
Proof.
  induction l as [|y l IH]; simpl; [reflexivity|].
  rewrite mem_app_single.
  destruct (String.eqb y g) eqn:E; simpl.
  - now rewrite orb_true_r.
  - rewrite orb_false_r. now rewrite IH.
Qed.

Lemma keys_fold_store (lines : list string) :
  forall gm,
    Dict.keys (fold_left store lines gm) =
    Dict.keys gm ++
    filter (fun g => negb (mem g (Dict.keys gm)))
      (first_occurrences (entry_names lines)).
Proof.
  induction lines as [|l ls IH]; intros gm; simpl.
  - now rewrite app_nil_r.
  - rewrite IH. unfold store, entry_names. simpl.
    destruct (classify l) as [| |g us]; simpl; try reflexivity.
    fold (entry_names ls). rewrite keys_set.
    destruct (mem g (Dict.keys gm)) eqn:E; simpl.
    + f_equal. symmetry. apply filter_seen_old. now apply mem_In.
    + rewrite <- app_assoc. simpl. f_equal. f_equal.
      symmetry. apply filter_seen_new.
Qed.



Lemma falsy_eqb (s : string) : String.eqb s "" = Str.falsy s.
Proof. now destruct s. Qed.

Lemma spec_cut_none (s : string) :
  Str.contains ":" s = false -> spec_cut s = None.
Proof.
  induction s as [|c s IH]; simpl; intros H; [reflexivity|].
  apply orb_false_iff in H as [Hc Hs]. now rewrite Hc, (IH Hs).
Qed.

Lemma spec_cut_some (a b : string) :
  Str.contains ":" a = false ->
  spec_cut (a ++ String ":" b) = Some (a, b).
Proof.
  induction a as [|c a IH]; simpl; intros H; [reflexivity|].
  apply orb_false_iff in H as [Hc Ha]. now rewrite Hc, (IH Ha).
Qed.

Lemma spec_members_users_of (rest : string) :
  spec_members rest = users_of rest.
Proof.
  rewrite users_of_trim_then_drop. unfold spec_members.
  apply filter_ext. intros u. now rewrite falsy_eqb.
Qed.

(** The three ways of the loop body against the specification's entry. *)
Lemma spec_entry_classify (line : string) :
  spec_entry line =
  match classify line with
  | Entry group users => Some (group, users)
  | _ => None
  end.
Proof.
  unfold spec_entry, classify. rewrite falsy_eqb.
  destruct (Str.falsy (Str.strip line)); simpl; [reflexivity|].
  destruct (Str.startswith "#" (Str.strip line)); [reflexivity|].
  destruct (Str.contains ":" (Str.strip line)) eqn:Hc.
  - destruct (split1_sep _ _ Hc) as (a & b & Hsp & Hs & Ha).
    rewrite Hsp. rewrite Hs at 1.
    now rewrite (spec_cut_some a b Ha), spec_members_users_of.
  - now rewrite (split1_no_sep _ _ Hc), (spec_cut_none _ Hc).
Qed.

Lemma spec_entries_app (l1 l2 : list string) :
  spec_entries (l1 ++ l2) = spec_entries l1 ++ spec_entries l2.
Proof. apply flat_map_app. Qed.

Lemma spec_entries_names (lines : list string) :
  map fst (spec_entries lines) = entry_names lines.
Proof.
  unfold spec_entries, entry_names.
  induction lines as [|l ls IH]; simpl; [reflexivity|].
  rewrite map_app, IH, spec_entry_classify.
  now destruct (classify l).
Qed.

Lemma spec_entries_single (line : string) :
  spec_entries [line] =
  match classify line with
  | Entry group users => [(group, users)]
  | _ => []
  end.
Proof.
  unfold spec_entries. simpl. rewrite app_nil_r, spec_entry_classify.
  now destruct (classify line).
Qed.

Lemma last_opt_snoc {A} (d : A) (ms : list A) (x : A) :
  match ms ++ [x] with
  | [] => None
  | a :: l => Some (last (a :: l) d)
  end = Some x.
Proof.
  destruct (ms ++ [x]) eqn:E.
  - apply app_eq_nil in E as [_ E]. discriminate.
  - rewrite <- E. now rewrite last_last.
Qed.

Lemma named_app (group : string) (e1 e2 : list (string * list string)) :
  named group (e1 ++ e2) = named group e1 ++ named group e2.
Proof. unfold named. now rewrite filter_app, map_app. Qed.

(** What the loop has stored for a group: nothing when no line gave it,
    else the members of the last line that did. *)
Lemma get_fold_store_last (group : string) (lines : list string) :
  Dict.get group (fold_left store lines []) =
  match named group (spec_entries lines) with
  | [] => None
  | ms => Some (last ms [])
  end.
Proof.
  induction lines as [|l ls IH] using rev_ind; [reflexivity|].
  rewrite fold_left_app, spec_entries_app, named_app, spec_entries_single.
  simpl. unfold store at 1.
  destruct (classify l) as [| |g us]; simpl;
    try (rewrite app_nil_r; exact IH).
  unfold named at 2. simpl.
  destruct (String.eqb g group) eqn:E; simpl.
  - apply String.eqb_eq in E. subst g. rewrite get_set_same.
    symmetry. apply (last_opt_snoc [] (named group (spec_entries ls)) us).
  - apply String.eqb_neq in E. rewrite get_set_other by congruence.
    rewrite app_nil_r. exact IH.
Qed.

Lemma dict_tabulate {V} (default : V) (d : Dict.t V) :
  NoDup (Dict.keys d) ->
  d = map (fun k => (k, match Dict.get k d with
                        | Some v => v
                        | None => default
                        end)) (Dict.keys d).
Proof.
  induction d as [|[k v] d IH]; simpl; intros H; [reflexivity|].
  inversion H as [|? ? Hk Hd]; subst.
  rewrite String.eqb_refl. f_equal.
  rewrite (IH Hd) at 1. apply map_ext_in. intros k' Hk'.
  destruct (String.eqb k k') eqn:E; [|reflexivity].
  apply String.eqb_eq in E. subst k'. contradiction.
Qed.

(** The loop builds the mapping of the specification. *)
Lemma fold_store_spec (lines : list string) :
  fold_left store lines [] = spec_mapping (spec_entries lines).
Proof.
  assert (Hnd : NoDup (Dict.keys (fold_left store lines [])))
    by (apply NoDup_keys_store; constructor).
  rewrite (dict_tabulate [] _ Hnd) at 1.
  rewrite keys_fold_store. simpl. rewrite filter_all by reflexivity.
  unfold spec_mapping. rewrite spec_entries_names.
  apply map_ext. intros group. rewrite get_fold_store_last.
  now destruct (named group (spec_entries lines)).
Qed.



Lemma complaints_are_errors (lines : list string) :
  Forall (fun r : log_record => fst r = ERROR) (complaints lines).
Proof.
  unfold complaints. apply Forall_forall. intros r Hr.
  apply in_flat_map in Hr as (l & _ & Hr).
  destruct (classify l); simpl in Hr; try contradiction.
  destruct Hr as [<-|[]]. reflexivity.
Qed.

(** The effects of the parser. The loop over the lines never raises: for
    any lines handed to it, it returns a mapping and adds one [ERROR] record
    per malformed line, and nothing else. The parser never prints and never
    writes a file; it only adds [ERROR] records to the log. When the [open]
    raises [FileNotFoundError], it logs that the group file was not found
    and raises [SystemExit(1)]; any other [OSError] raised by the [open]
    leaves the parser as it is, with nothing logged. *)
Theorem parse_group_file_effects (env : Env) (path : string) (w : World) :
  (forall lines gm w0,
     exists gm',
       parse_lines lines gm w0 =
       (log_more w0
          (map (fun l => invalid_line (Str.strip l))
             (filter malformed lines)),
        inl gm')) /\
  printed (fst (parse_group_file env path w)) = printed w /\
  written (fst (parse_group_file env path w)) = written w /\
  (exists records,
     logged (fst (parse_group_file env path w)) = logged w ++ records /\
     Forall (fun r : log_record => fst r = ERROR) records) /\
  (forall msg,
     open_r env path = inr (FileNotFound, msg) ->
     parse_group_file env path w =
     (log_more w [(ERROR, ("Group file not found: " ++ path)%string)],
      inr (SystemExit 1))) /\
  (forall k msg,
     open_r env path = inr (k, msg) -> k <> FileNotFound ->
     parse_group_file env path w = (w, inr (OSErr k msg))).
Proof.
  split.
  { intros lines gm w0. exists (fold_left store lines gm).
    now rewrite parse_lines_spec, complaints_malformed. }
  destruct (open_r env path) as [content|[k msg]] eqn:Ho.
  - rewrite (parse_group_file_ok env path content w Ho). simpl.
    repeat split; try reflexivity; try (intros; discriminate).
    exists (complaints (Str.lines content)).
    split; [reflexivity | apply complaints_are_errors].
  - unfold parse_group_file, try_except, bind, open_read. rewrite Ho.
    destruct k; simpl; repeat split; try reflexivity;
      try (intros; congruence);
      try (eexists; split; [reflexivity | repeat constructor]);
      try (exists []; split; [now rewrite app_nil_r | constructor]);
      try (intros k' msg' [= <- <-] Hk; congruence).
Qed.

Lemma parse_group_file_effects_witness :
  parse_group_file env_missing "groups.txt" initial =
  ({| logged := [(ERROR, "Group file not found: groups.txt")];
      printed := [];
      written := None |}, inr (SystemExit 1)) /\
  parse_group_file env_unreadable "groups.txt" initial =
  (initial, inr (OSErr PermissionDenied (permission_denied "groups.txt"))).
Proof.
  split.
  - exact (proj1 (proj2 (proj2 (proj2 (proj2
      (parse_group_file_effects env_missing "groups.txt" initial)))))
      (no_such_file "groups.txt") eq_refl).
  - refine (proj2 (proj2 (proj2 (proj2 (proj2
      (parse_group_file_effects env_unreadable "groups.txt" initial)))))
      PermissionDenied (permission_denied "groups.txt") eq_refl _).
    discriminate.
Defined.

(** ** Further properties of the analysis *)

Lemma groups_containing_total (user : string) (gm : GroupMembership) :
  List.length (groups_containing user gm) =
  count_occ string_dec (all_members gm) user.
Proof.
  unfold groups_containing, all_members.
  induction gm as [|[g us] gm IH]; simpl; [reflexivity|].
  now rewrite length_app, repeat_length, count_occ_app, IH.
Qed.

Lemma reported_keys (gm : GroupMembership) (t : Z) (user : string) :
  In user (Dict.keys (analyze_user_groups gm t)) <->
  In user (all_members gm) /\
  (t <= Z.of_nat (count_occ string_dec (all_members gm) user))%Z.
Proof.
  rewrite analyze_spec, keys_tabulate, filter_In, first_occurrences_In.
  unfold qualifies. rewrite groups_containing_total, Z.geb_le. tauto.
Qed.

(** Who is reported: a user is a key of the analysis exactly when the user
    occurs in some member list and the number of occurrences over all the
    member lists reaches the threshold; the list held for a reported user
    has as many entries as the user has occurrences. *)
Theorem reported_iff_enough_occurrences (gm : GroupMembership)
    (min_groups : Z) (user : string) :
  (In user (Dict.keys (analyze_user_groups gm min_groups)) <->
   In user (all_members gm) /\
   (min_groups <=
    Z.of_nat (count_occ string_dec (all_members gm) user))%Z) /\
  (forall groups,
     Dict.get user (analyze_user_groups gm min_groups) = Some groups ->
     List.length groups = count_occ string_dec (all_members gm) user /\
     (min_groups <= Z.of_nat (List.length groups))%Z).
Proof.
  rewrite analyze_spec, keys_tabulate, filter_In, first_occurrences_In.
  unfold qualifies. rewrite groups_containing_total. split.
  - rewrite Z.geb_le. tauto.
  - intros groups. rewrite get_tabulate.
    destruct (mem user _) eqn:Hm; [|discriminate].
    intros [= <-]. rewrite groups_containing_total. split; [reflexivity|].
    apply mem_In, filter_In in Hm as [_ Hq].
    unfold qualifies in Hq. rewrite groups_containing_total in Hq.
    now apply Z.geb_le.
Qed.

Lemma groups_containing_In (user group : string) (gm : GroupMembership) :
  In group (groups_containing user gm) <->
  exists users, In (group, users) gm /\ In user users.
Proof.
  unfold groups_containing. rewrite in_flat_map. split.
  - intros ([g us] & Hin & Hr). apply repeat_spec in Hr as Hg. subst g.
    exists us. split; [assumption|].
    apply (count_occ_In string_dec).
    destruct (count_occ string_dec us user); [contradiction | lia].
  - intros (us & Hin & Hu). exists (group, us). split; [assumption|].
    apply (count_occ_In string_dec) in Hu.
    destruct (count_occ string_dec us user); [lia | now left].
Qed.

(** Inversion is a round trip on membership: [group] stands in the list
    that the inverted index holds for [user] exactly when [user] stands in
    a member list of [group]. *)
Theorem inversion_preserves_membership (gm : GroupMembership)
    (user group : string) :
  (exists groups,
     Dict.get user (invert gm) = Some groups /\ In group groups) <->
  (exists users, In (group, users) gm /\ In user users).
Proof.
  rewrite invert_spec, <- groups_containing_In. split.
  - intros (groups & Hget & Hin). rewrite get_tabulate in Hget.
    destruct (mem user _); [|discriminate].
    injection Hget as <-. assumption.
  - intros Hin. exists (groups_containing user gm). split; [|assumption].
    rewrite get_tabulate.
    assert (Hm : In user (first_occurrences (all_members gm))).
    { apply first_occurrences_In, all_members_In.
      apply groups_containing_In in Hin as (us & H1 & H2). eauto. }
    apply mem_In in Hm. now rewrite Hm.
Qed.

Lemma total_append (u g : string) (d : UserGroupIndex) :
  total_memberships (Dict.append u g d) = S (total_memberships d).
Proof.
  unfold total_memberships.
  induction d as [|[k xs] d IH]; simpl; [reflexivity|].
  destruct (String.eqb k u); simpl.
  - rewrite length_app. simpl. lia.
  - rewrite IH. lia.
Qed.

Lemma total_fold_invert_step (occ : list (string * string)) :
  forall d,
    total_memberships (fold_left invert_step occ d) =
    total_memberships d + List.length occ.
Proof.
  induction occ as [|[u g] occ IH]; intros d; simpl; [lia|].
  rewrite IH. unfold invert_step. simpl. rewrite total_append. lia.
Qed.

(** Inversion neither loses nor invents a membership: the lists of the
    inverted index hold together as many entries as the member lists of the
    mapping do. *)
Theorem inversion_conserves_memberships (gm : GroupMembership) :
  total_memberships (invert gm) = total_memberships gm /\
  total_memberships gm = List.length (all_members gm).
Proof.
  assert (H : total_memberships gm = List.length (all_members gm)).
  { unfold total_memberships, all_members.
    induction gm as [|[g us] gm IH]; simpl; [reflexivity|].
    now rewrite length_app, IH. }
  split; [|exact H].
  rewrite invert_occurrences, total_fold_invert_step, H.
  rewrite <- occurrences_users, length_map. reflexivity.
Qed.

Lemma count_occ_NoDup (l : list string) (x : string) :
  NoDup l -> count_occ string_dec l x = if mem x l then 1 else 0.
Proof.
  intros Hnd. destruct (mem x l) eqn:E.
  - apply NoDup_count_1; [assumption | now apply mem_In].
  - apply count_occ_not_In. now apply mem_not_In.
Qed.

Lemma groups_containing_NoDup (user : string) (gm : GroupMembership) :
  Forall (fun entry => NoDup (snd entry)) gm ->
  groups_containing user gm =
  map fst (filter (fun entry => mem user (snd entry)) gm).
Proof.
  unfold groups_containing.
  induction 1 as [|[g us] gm Hus _ IH]; simpl; [reflexivity|].
  simpl in Hus. rewrite (count_occ_NoDup us user Hus), IH.
  now destruct (mem user us).
Qed.

Lemma NoDup_keys_filter {V} (P : string * V -> bool) (d : Dict.t V) :
  NoDup (Dict.keys d) -> NoDup (Dict.keys (filter P d)).
Proof.
  unfold Dict.keys.
  induction d as [|[k v] d IH]; simpl; intros H; [constructor|].
  inversion H as [|? ? Hk Hd]; subst.
  destruct (P (k, v)); simpl; [|auto].
  constructor; [|auto].
  intros Hin. apply Hk. apply in_map_iff in Hin as (e & <- & He).
  apply filter_In in He as [He _]. now apply in_map.
Qed.

Lemma filter_none {A} (P : A -> bool) (l : list A) :
  (forall x, In x l -> P x = false) -> filter P l = [].
Proof.
  induction l as [|x l IH]; simpl; intros H; [reflexivity|].
  rewrite (H x (or_introl eq_refl)). auto.
Qed.

Lemma get_analyze (gm : GroupMembership) (t : Z) (user : string)
    (groups : list string) :
  Dict.get user (analyze_user_groups gm t) = Some groups ->
  groups = groups_containing user gm.
Proof.
  rewrite analyze_spec, get_tabulate.
  destruct (mem user _); [|discriminate]. now intros [= <-].
Qed.

(** Without repeats in, without repeats out: when no member list of the
    mapping names a user twice, the list held for a reported user is the
    names of the groups that contain the user, in the order of the mapping
    and each once; it is no longer than the mapping, so a threshold above
    the number of groups reports nobody. *)
Theorem duplicate_free_lists (gm : GroupMembership) (min_groups : Z)
    (Hkeys : NoDup (Dict.keys gm))
    (Hmembers : Forall (fun entry => NoDup (snd entry)) gm) :
  (forall user groups,
     Dict.get user (analyze_user_groups gm min_groups) = Some groups ->
     groups = map fst (filter (fun entry => mem user (snd entry)) gm) /\
     NoDup groups /\
     List.length groups <= List.length gm) /\
  ((Z.of_nat (List.length gm) < min_groups)%Z ->
   analyze_user_groups gm min_groups = []).
Proof.
  assert (Hlen : forall user,
            List.length (groups_containing user gm) <= List.length gm).
  { intros user. rewrite (groups_containing_NoDup user gm Hmembers).
    rewrite length_map. apply filter_length_le. }
  split.
  - intros user groups Hget. apply get_analyze in Hget. subst groups.
    split; [now apply groups_containing_NoDup|]. split; [|apply Hlen].
    rewrite (groups_containing_NoDup user gm Hmembers).
    now apply (NoDup_keys_filter (fun entry => mem user (snd entry)) gm).
  - intros Ht. rewrite analyze_spec, filter_none; [reflexivity|].
    intros user _. unfold qualifies. specialize (Hlen user).
    destruct (Z.geb_spec (Z.of_nat (List.length (groups_containing user gm)))
                min_groups); [lia | reflexivity].
Qed.

Lemma duplicate_free_lists_witness :
  analyze_user_groups [("a", ["x"; "y"]); ("b", ["y"])] 3 = [].
Proof.
  apply (duplicate_free_lists [("a", ["x"; "y"]); ("b", ["y"])] 3).
  - repeat constructor; simpl; intuition discriminate.
  - repeat constructor; simpl; intuition discriminate.
  - simpl. lia.
Defined.

(** The set of reported users does not depend on the order of the groups:
    two mappings with the same entries in another order report the same
    users at every threshold. *)
Theorem reported_set_ignores_group_order (gm gm' : GroupMembership)
    (min_groups : Z) (Hperm : Permutation gm gm') (user : string) :
  In user (Dict.keys (analyze_user_groups gm min_groups)) <->
  In user (Dict.keys (analyze_user_groups gm' min_groups)).
Proof.
  assert (Hm : Permutation (all_members gm) (all_members gm')).
  { unfold all_members. now apply Permutation_flat_map. }
  rewrite !reported_keys.
  assert (Hin : In user (all_members gm) <-> In user (all_members gm')).
  { split; apply Permutation_in; [assumption | now apply Permutation_sym]. }
  rewrite (Permutation_count_occ string_dec) in Hm.
  rewrite (Hm user), Hin. reflexivity.
Qed.

Lemma reported_set_ignores_group_order_witness :
  Permutation [("a", ["x"; "y"]); ("b", ["y"])]
              [("b", ["y"]); ("a", ["x"; "y"])] /\
  (In "y" (Dict.keys
             (analyze_user_groups [("a", ["x"; "y"]); ("b", ["y"])] 2)) <->
   In "y" (Dict.keys
             (analyze_user_groups [("b", ["y"]); ("a", ["x"; "y"])] 2))).
Proof.
  assert (H : Permutation [("a", ["x"; "y"]); ("b", ["y"])]
                          [("b", ["y"]); ("a", ["x"; "y"])])
    by apply perm_swap.
  split; [exact H|].
  exact (reported_set_ignores_group_order _ _ 2 H "y").
Defined.

(** ** Further properties of the report writer *)

(** The report writer with an output path. Nothing is handed to [print],
    and the writer returns without raising whether the write succeeds or
    not: when the file can be written, the file holds the complete report
    and one [INFO] record naming the path is logged; when the [open] or a
    write raises an [OSError], one [ERROR] record with [str(e)] is logged
    and no report file has been completed. Without an output path (or with
    an empty one) the writer neither logs nor writes a file. *)
Theorem write_output_to_file (env : Env) (d : UserGroupIndex)
    (path : string) (w : World) (Hp : Str.falsy path = false) :
  printed (fst (write_output env d (Some path) w)) = printed w /\
  snd (write_output env d (Some path) w) = inl tt /\
  (open_w env path = None ->
   write_output env d (Some path) w =
   ({| logged :=
         logged w ++
         [(INFO, ("Analysis results written to: " ++ path)%string)];
       printed := printed w;
       written := Some (path, file_text (output_lines d)) |}, inl tt)) /\
  (forall k msg,
     open_w env path = Some (k, msg) ->
     write_output env d (Some path) w =
     ({| logged :=
           logged w ++
           [(ERROR, ("Error writing to output file: " ++ msg)%string)];
         printed := printed w;
         written := written w |}, inl tt)) /\
  (forall output_file,
     truthy output_file = false ->
     logged (fst (write_output env d output_file w)) = logged w /\
     written (fst (write_output env d output_file w)) = written w).
Proof.
  destruct (open_w env path) as [[k msg]|] eqn:Ho.
  - rewrite (write_output_fails env d path w k msg Hp Ho). simpl.
    repeat split; try reflexivity; try (intros; discriminate).
    + intros k' msg' [= <- <-]. reflexivity.
    + now rewrite (write_output_console env d output_file w H).
    + now rewrite (write_output_console env d output_file w H).
  - rewrite (write_output_file env d path w Hp Ho). simpl.
    repeat split; try reflexivity; try (intros; discriminate).
    + now rewrite (write_output_console env d output_file w H).
    + now rewrite (write_output_console env d output_file w H).
Qed.

Lemma write_output_to_file_witness :
  write_output (env_with "") [("bob", ["ops"; "dev"])] (Some "report.txt")
    initial =
  ({| logged := [(INFO, "Analysis results written to: report.txt")];
      printed := [];
      written :=
        Some ("report.txt", ("User: bob, Groups: ops, dev" ++ nl)%string) |},
   inl tt) /\
  write_output (env_readonly "") [("bob", ["ops"; "dev"])] (Some "report.txt")
    initial =
  ({| logged :=
        [(ERROR,
          "Error writing to output file: [Errno 13] Permission denied: 'report.txt'")];
      printed := [];
      written := None |}, inl tt).
Proof.
  split.
  - exact (proj1 (proj2 (proj2
      (write_output_to_file (env_with "") [("bob", ["ops"; "dev"])]
         "report.txt" initial eq_refl))) eq_refl).
  - exact (proj1 (proj2 (proj2 (proj2
      (write_output_to_file (env_readonly "") [("bob", ["ops"; "dev"])]
         "report.txt" initial eq_refl))))
      PermissionDenied (permission_denied "report.txt") eq_refl).
Defined.

Lemma sapp_nil_r (s : string) : (s ++ "")%string = s.
Proof. induction s as [|c s IH]; simpl; [reflexivity | now rewrite IH]. Qed.

Lemma sapp_assoc (a b c : string) :
  ((a ++ b) ++ c)%string = (a ++ (b ++ c))%string.
Proof. induction a as [|x a IH]; simpl; [reflexivity | now rewrite IH]. Qed.

Lemma contains_app (c : ascii) (a b : string) :
  Str.contains c (a ++ b) = Str.contains c a || Str.contains c b.
Proof.
  induction a as [|x a IH]; simpl; [reflexivity|].
  now rewrite IH, orb_assoc.
Qed.

Lemma cut_unique (c : ascii) (a : string) :
  forall a' b b',
    Str.contains c a = false -> Str.contains c a' = false ->
    (a ++ String c b)%string = (a' ++ String c b')%string ->
    a = a' /\ b = b'.
Proof.
  induction a as [|x a IH]; intros [|x' a'] b b' Ha Ha' E; simpl in *.
  - injection E as <-. auto.
  - injection E as <- _. rewrite Ascii.eqb_refl in Ha'. discriminate.
  - injection E as -> _. rewrite Ascii.eqb_refl in Ha. discriminate.
  - injection E as <- E.
    apply orb_false_iff in Ha as [_ Ha]. apply orb_false_iff in Ha' as [_ Ha'].
    destruct (IH a' b b' Ha Ha' E) as [-> ->]. auto.
Qed.

Lemma join_cons2 (sep x y : string) (r : list string) :
  Str.join sep (x :: y :: r) = (x ++ sep ++ Str.join sep (y :: r))%string.
Proof. reflexivity. Qed.

Lemma join_injective (gs : list string) :
  forall gs',
    gs <> [] -> gs' <> [] ->
    Forall (fun g => Str.contains "," g = false) gs ->
    Forall (fun g => Str.contains "," g = false) gs' ->
    Str.join ", " gs = Str.join ", " gs' ->
    gs = gs'.
Proof.
  induction gs as [|x gs IH]; intros [|x' gs'] Hne Hne' Hc Hc' E;
    try congruence.
  inversion Hc as [|? ? Hx Hgs]; subst.
  inversion Hc' as [|? ? Hx' Hgs']; subst.
  destruct gs as [|y r], gs' as [|y' r'].
  - simpl in E. now subst.
  - rewrite join_cons2 in E. change (Str.join ", " [x]) with x in E.
    subst x. rewrite contains_app in Hx. simpl in Hx.
    rewrite orb_true_r in Hx. discriminate.
  - rewrite join_cons2 in E. change (Str.join ", " [x']) with x' in E.
    subst x'. rewrite contains_app in Hx'. simpl in Hx'.
    rewrite orb_true_r in Hx'. discriminate.
  - rewrite !join_cons2 in E.
    change (", " ++ Str.join ", " (y :: r))%string
      with (String "," (String " " (Str.join ", " (y :: r)))) in E.
    change (", " ++ Str.join ", " (y' :: r'))%string
      with (String "," (String " " (Str.join ", " (y' :: r')))) in E.
    destruct (cut_unique "," x x' _ _ Hx Hx' E) as [-> E'].
    injection E' as E'. f_equal.
    apply IH; try assumption; discriminate.
Qed.

(** A report line can be read back when the names hold no comma: two
    lines that are equal were rendered from the same user and the same
    list of groups. (The parser keeps commas out of the user names; it does
    not keep them out of the group names.) *)
Theorem report_line_is_unambiguous (user user' : string)
    (groups groups' : list string)
    (Hu : Str.contains "," user = false)
    (Hu' : Str.contains "," user' = false)
    (Hne : groups <> []) (Hne' : groups' <> [])
    (Hg : Forall (fun g => Str.contains "," g = false) groups)
    (Hg' : Forall (fun g => Str.contains "," g = false) groups')
    (Hline : output_line user groups = output_line user' groups') :
  user = user' /\ groups = groups'.
Proof.
  unfold output_line in Hline. simpl in Hline.
  injection Hline as Hline.
  change (", Groups: " ++ Str.join ", " groups)%string
    with (String "," (" Groups: " ++ Str.join ", " groups)%string) in Hline.
  change (", Groups: " ++ Str.join ", " groups')%string
    with (String "," (" Groups: " ++ Str.join ", " groups')%string) in Hline.
  destruct (cut_unique "," user user' _ _ Hu Hu' Hline) as [-> E].
  split; [reflexivity|]. simpl in E. injection E as E.
  now apply join_injective.
Qed.

Lemma report_line_is_unambiguous_witness :
  output_line "ann" ["ops"; "dev"] = "User: ann, Groups: ops, dev" /\
  "ann" = "ann" /\ ["ops"; "dev"] = ["ops"; "dev"].
Proof.
  split; [reflexivity|].
  apply (report_line_is_unambiguous "ann" "ann" ["ops"; "dev"] ["ops"; "dev"]);
    try reflexivity; try discriminate; repeat constructor.
Defined.

Lemma no_newline_iff (s : string) :
  no_newline s = true <->
  Str.contains Str.LF s = false /\ Str.contains Str.CR s = false.
Proof.
  unfold no_newline. rewrite andb_true_iff, !negb_true_iff. tauto.
Qed.

Lemma lines_line (l rest : string) :
  no_newline l = true ->
  Str.lines (l ++ String Str.LF rest) = (l ++ nl)%string :: Str.lines rest.
Proof.
  induction l as [|c l IH]; intros H.
  - reflexivity.
  - apply no_newline_iff in H as [Hlf Hcr]. simpl in Hlf, Hcr.
    apply orb_false_iff in Hlf as [Hc1 Hlf].
    apply orb_false_iff in Hcr as [Hc2 Hcr].
    simpl. rewrite Hc1, Hc2, IH by now apply no_newline_iff.
    reflexivity.
Qed.

Lemma concat_empty_cons (x : string) (xs : list string) :
  String.concat "" (x :: xs) = (x ++ String.concat "" xs)%string.
Proof.
  destruct xs; simpl; [now rewrite sapp_nil_r | reflexivity].
Qed.

Lemma file_text_cons (l : string) (ls : list string) :
  file_text (l :: ls) = (l ++ String Str.LF (file_text ls))%string.
Proof.
  unfold file_text. rewrite map_cons, concat_empty_cons.
  unfold nl. now rewrite sapp_assoc.
Qed.

(** Written lines are read back as they were written, when none of them
    holds a line terminator. *)
Lemma lines_file_text (ls : list string) :
  Forall (fun l => no_newline l = true) ls ->
  Str.lines (file_text ls) = map (fun l => (l ++ nl)%string) ls.
Proof.
  induction 1 as [|l ls Hl _ IH]; [reflexivity|].
  rewrite file_text_cons, (lines_line l _ Hl), IH. reflexivity.
Qed.

Lemma lines_shape_bounded (n : nat) :
  forall s, String.length s <= n -> Forall terminated_line (Str.lines s).
Proof.
  assert (Hnl : terminated_line (String Str.LF "")).
  { exists "". split; [reflexivity | now right]. }
  induction n as [|n IH]; intros [|c s] Hlen; simpl in *;
    try constructor; try lia.
  destruct (Ascii.eqb c Str.LF) eqn:Hlf.
  { constructor; [exact Hnl | apply IH; lia]. }
  destruct (Ascii.eqb c Str.CR) eqn:Hcr.
  { destruct s as [|c' s'].
    - repeat constructor. exact Hnl.
    - destruct (Ascii.eqb c' Str.LF); (constructor; [exact Hnl|]);
        apply IH; simpl in *; lia. }
  assert (Hs : Forall terminated_line (Str.lines s)) by (apply IH; lia).
  destruct (Str.lines s) as [|p ps]; simpl.
  - repeat constructor. exists (String c ""). split; [|now left].
    apply no_newline_iff. simpl. now rewrite Hlf, Hcr.
  - inversion Hs as [|? ? (body & Hb & Hp) Hps]; subst.
    constructor; [|assumption].
    exists (String c body). split.
    + apply no_newline_iff in Hb as [H1 H2].
      apply no_newline_iff. simpl. now rewrite Hlf, Hcr, H1, H2.
    + destruct Hp as [->| ->]; [now left | now right].
Qed.

Lemma lines_strip_free (c : ascii) (content : string) :
  c = Str.LF \/ c = Str.CR ->
  Forall (fun l => Str.contains c (Str.strip l) = false) (Str.lines content).
Proof.
  intros Hc.
  pose proof (lines_shape_bounded (String.length content) content (le_n _))
    as H.
  eapply Forall_impl; [|exact H]. intros l (body & Hb & Hl). simpl.
  apply no_newline_iff in Hb as [H1 H2].
  assert (Hs : Str.strip l = Str.strip body).
  { destruct Hl as [->| ->]; [reflexivity|].
    apply (strip_pad "" body (String Str.LF "")); reflexivity. }
  rewrite Hs. apply contains_strip. now destruct Hc as [->| ->].
Qed.

Lemma split_free (c sep : ascii) (s : string) :
  Str.contains c s = false ->
  Forall (fun p => Str.contains c p = false) (Str.split sep s).
Proof.
  induction s as [|x s IH]; simpl; intros H.
  - repeat constructor.
  - apply orb_false_iff in H as [Hx Hs]. specialize (IH Hs).
    destruct (Ascii.eqb x sep).
    + constructor; [reflexivity | assumption].
    + destruct (Str.split sep s) as [|p ps]; simpl.
      * repeat constructor. simpl. now rewrite Hx.
      * inversion IH; subst. constructor; [|assumption].
        simpl. now rewrite Hx.
Qed.

Lemma classify_entry_free (c : ascii) (line group : string)
    (users : list string) :
  Str.contains c (Str.strip line) = false ->
  classify line = Entry group users ->
  Str.contains c group = false /\
  Forall (fun u => Str.contains c u = false) users.
Proof.
  intros Hc E.
  destruct (classify_cases line)
    as [(_ & _ & E')|[(_ & _ & E')|(W & _ & _)]]; try congruence.
  unfold well_formed in W. apply andb_true_iff in W as [Hs Hcol].
  destruct (classify_entry line Hs Hcol) as (a & b & Hl & _ & E').
  rewrite E' in E. injection E as <- <-.
  rewrite Hl, contains_app in Hc. simpl in Hc.
  apply orb_false_iff in Hc as [Ha Hb].
  apply orb_false_iff in Hb as [_ Hb].
  split; [now apply contains_strip|].
  unfold users_of. apply Forall_forall. intros u Hu.
  apply in_map_iff in Hu as (p & <- & Hp).
  apply filter_In in Hp as [Hp _].
  pose proof (split_free c "," b Hb) as Hall.
  rewrite Forall_forall in Hall. apply contains_strip. auto.
Qed.

Lemma fold_store_free (c : ascii) (lines : list string) :
  Forall (fun l => Str.contains c (Str.strip l) = false) lines ->
  forall gm,
    Forall (fun entry => Str.contains c (fst entry) = false /\
              Forall (fun u => Str.contains c u = false) (snd entry)) gm ->
    Forall (fun entry => Str.contains c (fst entry) = false /\
              Forall (fun u => Str.contains c u = false) (snd entry))
      (fold_left store lines gm).
Proof.
  induction 1 as [|l ls Hl _ IH]; intros gm H; simpl; [assumption|].
  apply IH. unfold store. destruct (classify l) as [| |g us] eqn:E;
    try assumption.
  apply Forall_forall. intros [g' us'] Hin.
  apply In_set in Hin as [Heq|Hin].
  - injection Heq as -> ->. simpl. now apply (classify_entry_free c l).
  - rewrite Forall_forall in H. now apply H.
Qed.

Lemma contains_join (c : ascii) (sep : string) (gs : list string) :
  Str.contains c sep = false ->
  Forall (fun g => Str.contains c g = false) gs ->
  Str.contains c (Str.join sep gs) = false.
Proof.
  intros Hsep. induction 1 as [|x gs Hx Hgs IH]; [reflexivity|].
  destruct gs as [|y r]; [exact Hx|].
  rewrite join_cons2, !contains_app, Hx, Hsep, IH. reflexivity.
Qed.

Lemma output_line_free (c : ascii) (user : string) (groups : list string) :
  Str.contains c "User: , Groups: " = false ->
  Str.contains c user = false ->
  Forall (fun g => Str.contains c g = false) groups ->
  Str.contains c (output_line user groups) = false.
Proof.
  intros Hlit Hu Hg. unfold output_line.
  change "User: , Groups: " with ("User: " ++ ", Groups: ")%string in Hlit.
  rewrite contains_app in Hlit. apply orb_false_iff in Hlit as [H1 H2].
  rewrite !contains_app, H1, Hu, H2. simpl.
  apply contains_join; [|assumption].
  simpl in H2. apply orb_false_iff in H2 as [Hc H2].
  apply orb_false_iff in H2 as [Hs _]. simpl. now rewrite Hc, Hs.
Qed.

Lemma report_free (c : ascii) (gm : GroupMembership) (t : Z) :
  Str.contains c "User: , Groups: " = false ->
  Forall (fun entry => Str.contains c (fst entry) = false /\
            Forall (fun u => Str.contains c u = false) (snd entry)) gm ->
  Forall (fun l => Str.contains c l = false)
    (output_lines (analyze_user_groups gm t)).
Proof.
  intros Hlit Hgm. rewrite Forall_forall in Hgm.
  unfold output_lines. rewrite analyze_spec, map_map.
  apply Forall_forall. intros l Hl.
  apply in_map_iff in Hl as (u & <- & Hu).
  apply filter_In in Hu as [Hu _].
  apply first_occurrences_In, all_members_In in Hu as (g & us & Hin & Hus).
  apply output_line_free; [assumption| |].
  - destruct (Hgm _ Hin) as [_ Hall]. rewrite Forall_forall in Hall. auto.
  - apply Forall_forall. intros g' Hg'.
    apply groups_containing_In in Hg' as (us' & Hin' & _).
    now destruct (Hgm _ Hin').
Qed.

Lemma report_has_no_newline (content : string) (t : Z) :
  Forall (fun l => no_newline l = true)
    (output_lines
       (analyze_user_groups (fold_left store (Str.lines content) []) t)).
Proof.
  assert (H : forall c, c = Str.LF \/ c = Str.CR ->
            Forall (fun l => Str.contains c l = false)
              (output_lines
                 (analyze_user_groups
                    (fold_left store (Str.lines content) []) t))).
  { intros c Hc. apply report_free.
    - now destruct Hc as [->| ->].
    - apply fold_store_free; [now apply lines_strip_free | constructor]. }
  pose proof (H Str.LF (or_introl eq_refl)) as Hlf.
  pose proof (H Str.CR (or_intror eq_refl)) as Hcr.
  rewrite Forall_forall in *. intros l Hl.
  apply no_newline_iff. auto.
Qed.

(** The report file reads back. When a run writes its report to a file,
    the file is the report lines of the analysis of the parsed mapping,
    each followed by its line terminator; no report line holds a line
    terminator (no name that the parser stores does), so the lines that a
    text-mode reader gets from the file are these lines one for one, none
    broken in two. *)
Theorem report_file_reads_back (env : Env) (args : Args)
    (content path : string)
    (Hf : isfile env (group_file args) = true)
    (Hm : (0 < min_groups args)%Z)
    (Ho : open_r env (group_file args) = inl content)
    (Hout : output args = Some path)
    (Hp : Str.falsy path = false)
    (Hw : open_w env path = None) :
  let report :=
    output_lines
      (analyze_user_groups (spec_mapping (spec_entries (Str.lines content)))
         (min_groups args)) in
  exists text,
    written (fst (run env args)) = Some (path, text) /\
    text = file_text report /\
    Forall (fun l => no_newline l = true) report /\
    Str.lines text = map (fun l => (l ++ nl)%string) report.
Proof.
  intros report. exists (file_text report).
  assert (Hnl : Forall (fun l => no_newline l = true) report).
  { unfold report. rewrite <- fold_store_spec. apply report_has_no_newline. }
  unfold run.
  rewrite (main_parsed env args content Hf Hm Ho), Hout.
  rewrite (write_output_file env _ path _ Hp Hw), fold_store_spec.
  simpl. repeat split; [assumption|].
  now apply lines_file_text.
Qed.

Lemma report_file_reads_back_witness :
  exists text,
    written
      (fst (run (env_with ("ops:ann,bob" ++ nl ++ "dev:bob,ann" ++ nl)%string)
              {| group_file := "groups.txt"; output := Some "report.txt";
                 min_groups := 2 |})) = Some ("report.txt", text) /\
    Str.lines text =
    [("User: ann, Groups: ops, dev" ++ nl)%string;
     ("User: bob, Groups: ops, dev" ++ nl)%string].
Proof.
  destruct (report_file_reads_back
              (env_with ("ops:ann,bob" ++ nl ++ "dev:bob,ann" ++ nl)%string)
              {| group_file := "groups.txt"; output := Some "report.txt";
                 min_groups := 2 |}
              ("ops:ann,bob" ++ nl ++ "dev:bob,ann" ++ nl)%string "report.txt"
              eq_refl eq_refl eq_refl eq_refl eq_refl eq_refl)
    as (text & Hw & _ & _ & Hl).
  exists text. split; [exact Hw|]. rewrite Hl. reflexivity.
Defined.

(** ** Further properties of the orchestrator *)

(** A successful run to a file, end to end. When the validations pass,
    the whole text of the group file is read and the report file can be
    written, the log holds one error per malformed line, in file order,
    and then one [INFO] record naming the path; nothing is handed to
    [print]; the file holds the report lines of the analysis of the mapping
    that the well-formed lines give, each with its line terminator; and
    the status is 0. *)
Theorem successful_run_to_file (env : Env) (args : Args)
    (content path : string)
    (Hf : isfile env (group_file args) = true)
    (Hm : (0 < min_groups args)%Z)
    (Ho : open_r env (group_file args) = inl content)
    (Hout : output args = Some path)
    (Hp : Str.falsy path = false)
    (Hw : open_w env path = None) :
  run env args =
  ({| logged :=
        map (fun l => invalid_line (Str.strip l))
          (filter malformed (Str.lines content)) ++
        [(INFO, ("Analysis results written to: " ++ path)%string)];
      printed := [];
      written :=
        Some (path,
              file_text
                (output_lines
                   (analyze_user_groups
                      (spec_mapping (spec_entries (Str.lines content)))
                      (min_groups args)))) |}, 0%Z).
Proof.
  unfold run.
  rewrite (main_parsed env args content Hf Hm Ho), Hout.
  rewrite (write_output_file env _ path _ Hp Hw).
  now rewrite fold_store_spec, complaints_malformed.
Qed.

Lemma successful_run_to_file_witness :
  run (env_with ("ops:ann,bob" ++ nl ++ "junk" ++ nl ++ "dev:bob" ++ nl)%string)
    {| group_file := "groups.txt"; output := Some "report.txt";
       min_groups := 2 |} =
  ({| logged :=
        [(ERROR, "Invalid line format in group file: junk");
         (INFO, "Analysis results written to: report.txt")];
      printed := [];
      written :=
        Some ("report.txt", ("User: bob, Groups: ops, dev" ++ nl)%string) |},
   0%Z).
Proof.
  rewrite (successful_run_to_file
    (env_with ("ops:ann,bob" ++ nl ++ "junk" ++ nl ++ "dev:bob" ++ nl)%string)
    {| group_file := "groups.txt"; output := Some "report.txt";
       min_groups := 2 |}
    ("ops:ann,bob" ++ nl ++ "junk" ++ nl ++ "dev:bob" ++ nl)%string
    "report.txt" eq_refl eq_refl eq_refl eq_refl eq_refl eq_refl).
  reflexivity.
Defined.

Lemma fold_store_skipped (lines : list string) :
  Forall (fun l => significant l = false) lines ->
  forall gm, fold_left store lines gm = gm /\ complaints lines = [].
Proof.
  induction 1 as [|l ls Hl _ IH]; intros gm; simpl; [auto|].
  unfold store at 2. rewrite (classify_skipped l Hl).
  destruct (IH gm) as [-> ->]. auto.
Qed.

(** Nothing to report. When the group file is empty or holds only blank
    and comment lines, the run logs no error and reports nobody: on the
    console it prints nothing at all; with an output path it still creates
    the report file, empty, and logs the [INFO] record. The status is 0. *)
Theorem empty_group_file (env : Env) (args : Args) (content : string)
    (Hf : isfile env (group_file args) = true)
    (Hm : (0 < min_groups args)%Z)
    (Ho : open_r env (group_file args) = inl content)
    (Hblank : Forall (fun l => significant l = false) (Str.lines content)) :
  (truthy (output args) = false -> run env args = (initial, 0%Z)) /\
  (forall path,
     output args = Some path -> Str.falsy path = false ->
     open_w env path = None ->
     run env args =
     ({| logged := [(INFO, ("Analysis results written to: " ++ path)%string)];
         printed := [];
         written := Some (path, "") |}, 0%Z)).
Proof.
  destruct (fold_store_skipped _ Hblank []) as [Hgm Hlog].
  unfold run. rewrite (main_parsed env args content Hf Hm Ho), Hgm, Hlog.
  split.
  - intros T. now rewrite (write_output_console env _ _ _ T).
  - intros path Hout Hp Hw.
    now rewrite Hout, (write_output_file env _ path _ Hp Hw).
Qed.

Lemma empty_group_file_witness :
  run (env_with ("# groups" ++ nl ++ "   " ++ nl)%string) default_args =
  (initial, 0%Z) /\
  run (env_with "") default_args = (initial, 0%Z).
Proof.
  split.
  - apply (empty_group_file
             (env_with ("# groups" ++ nl ++ "   " ++ nl)%string) default_args
             ("# groups" ++ nl ++ "   " ++ nl)%string);
      try reflexivity. repeat constructor.
  - apply (empty_group_file (env_with "") default_args "");
      try reflexivity. constructor.
Defined.
